(** * Epic Games status bot: change detection and subscription matching

    A shallow embedding of the worker's polling core:
    - [worker/src/epic-status.ts]: [getFingerprint], [parseEvent],
      [fetchFromUrl], [fetchAllEvents];
    - the subscriptions module: [IMPACT_LEVELS], [eventMatchesSubscription];
    - the worker entry point: [pollAndNotify], [loadState], [saveState].

    Conventions.  JavaScript strings are [string]; arrays are [list];
    the [fingerprints] record (a plain object used as a dictionary of its
    own properties) is a [gmap string string]; [new Set(..)] is a [gset].
    [toLowerCase] is modelled on the ASCII letters.  Optional chaining on
    [incident_updates] and [components] is kept by giving these fields an
    [option] type. *)

From Stdlib Require Import ZArith Ascii String.
From stdpp Require Import base option list gmap strings.
From stdpp Require Import pretty.

(** ** JavaScript library functions used by the worker *)

Module JS.

(** [c.toLowerCase()] on one ASCII code unit. *)
Definition lower_ascii (c : ascii) : ascii :=
  let n := nat_of_ascii c in
  if ((65 <=? n) && (n <=? 90))%nat then ascii_of_nat (n + 32) else c.

(** [s.toLowerCase()] *)
Fixpoint toLowerCase (s : string) : string :=
  match s with
  | EmptyString => EmptyString
  | String c s' => String (lower_ascii c) (toLowerCase s')
  end.

(** [s.startsWith(p)] *)
Fixpoint startsWith (s p : string) {struct p} : bool :=
  match p, s with
  | EmptyString, _ => true
  | String _ _, EmptyString => false
  | String a p', String b s' =>
      if decide (a = b) then startsWith s' p' else false
  end.

(** [s.includes(t)]: [t] occurs in [s] as a contiguous run. *)
Fixpoint includes (s t : string) : bool :=
  startsWith s t ||
  match s with
  | EmptyString => false
  | String _ s' => includes s' t
  end.

(** [xs.join(sep)] *)
Fixpoint join (sep : string) (xs : list string) : string :=
  match xs with
  | [] => ""
  | [x] => x
  | x :: rest => x +:+ sep +:+ join sep rest
  end.

(** [xs.slice(-n)]: the last [n] elements (all of them when there are
    fewer). *)
Definition slice_last {A} (n : nat) (xs : list A) : list A :=
  drop (length xs - n) xs.

(** [xs.indexOf(x)], with [-1] when [x] does not occur. *)
Fixpoint indexOf_from (i : Z) (xs : list string) (x : string) : Z :=
  match xs with
  | [] => (-1)%Z
  | y :: ys => if decide (y = x) then i else indexOf_from (i + 1)%Z ys x
  end.

Definition indexOf (xs : list string) (x : string) : Z := indexOf_from 0 xs x.

(** [a || b] on strings: the empty string is falsy. *)
Definition or_else (a b : string) : string :=
  if decide (a = "") then b else a.

End JS.

(** ** [types.ts] *)

Record StatusUpdate := {
  su_id : string;
  su_status : string;
  su_body : string;
  su_created_at : string;
}.

Record Component := {
  c_id : string;
  c_name : string;
  c_status : string;
}.

Record StatusEvent := {
  id : string;
  name : string;
  status : string;
  impact : string;
  shortlink : string;
  created_at : string;
  updated_at : string;
  incident_updates : option (list StatusUpdate);
  components : option (list Component);
  scheduled_for : option string;
  scheduled_until : option string;
}.

Inductive EventType := incident | maintenance.

#[global] Instance EventType_eq_dec : EqDecision EventType.
Proof. solve_decision. Defined.

(** [ParsedEvent extends StatusEvent]: the spread [...data] plus the two
    derived fields. *)
Record ParsedEvent := {
  data : StatusEvent;
  eventType : EventType;
  fingerprint : string;
}.

Record BotState := {
  seenIds : list string;
  fingerprints : gmap string string;
  lastChecked : string;
}.

(** ['none' | 'minor' | 'major' | 'critical'] *)
Inductive MinImpact := MI_none | MI_minor | MI_major | MI_critical.

#[global] Instance MinImpact_eq_dec : EqDecision MinImpact.
Proof. solve_decision. Defined.

Definition MinImpact_str (m : MinImpact) : string :=
  match m with
  | MI_none => "none"
  | MI_minor => "minor"
  | MI_major => "major"
  | MI_critical => "critical"
  end.

(** [eventTypes] holds one of the strings written by the filter command
    (['all'], ['incidents'], ['maintenance']) and is compared as a string. *)
Record UserSubscription := {
  chatId : Z;
  services : list string;
  minImpact : MinImpact;
  eventTypes : string;
  createdAt : string;
  updatedAt : string;
}.

(** ** [epic-status.ts] *)

Module EpicStatus.

(** [event.incident_updates?.[0]?.id || ''] *)
Definition latestUpdateId (event : StatusEvent) : string :=
  JS.or_else
    match incident_updates event with
    | Some (u :: _) => su_id u
    | _ => ""
    end
    "".

Definition getFingerprint (event : StatusEvent) : string :=
  status event +:+ ":" +:+ latestUpdateId event.

Definition parseEvent (d : StatusEvent) (ty : EventType) : ParsedEvent :=
  {| data := d; eventType := ty; fingerprint := getFingerprint d |}.

End EpicStatus.

(** ** Exceptions and promises

    An [await]ed computation either yields a value or rejects; [try]/[catch]
    turns a rejection into the handler's result.  Console logging has no
    effect on the values computed and is left out. *)

Inductive Exc (A : Type) : Type :=
  | Ok (a : A)
  | Throw (err : string).

Arguments Ok {A} a.
Arguments Throw {A} err.

#[global] Instance Exc_bind : MBind Exc := λ A B k m,
  match m with
  | Ok a => k a
  | Throw e => Throw e
  end.

Definition try_catch {A} (body : Exc A) (handler : string → Exc A) : Exc A :=
  match body with
  | Ok a => Ok a
  | Throw e => handler e
  end.

(** [Promise.all]: rejects as soon as one of the promises rejects. *)
Fixpoint promise_all {A} (ps : list (Exc A)) : Exc (list A) :=
  match ps with
  | [] => Ok []
  | p :: rest => a ← p; as' ← promise_all rest; Ok (a :: as')
  end.

(** What [data[key]] can be once the body has been parsed: a falsy value
    ([null], [0], ...), an array of events, or some other truthy value
    (on which [.map] is not a function). *)
Inductive JsonValue :=
  | JFalsy
  | JArray (events : list StatusEvent)
  | JOther.

Record Response := {
  ok : bool;
  resp_status : Z;
  json : Exc (gmap string JsonValue);
}.

(** The network: what [fetch(url)] resolves to, or rejects with. *)
Definition Network := string → Exc Response.

Module Feed.
Import EpicStatus.

Definition BASE_URL := "https://status.epicgames.com/api/v2".
Definition INCIDENTS_URL := BASE_URL +:+ "/incidents/unresolved.json".
Definition MAINTENANCE_ACTIVE_URL :=
  BASE_URL +:+ "/scheduled-maintenances/active.json".
Definition MAINTENANCE_UPCOMING_URL :=
  BASE_URL +:+ "/scheduled-maintenances/upcoming.json".

(** The body of the [try] block of [fetchFromUrl]. *)
Definition fetchFromUrl_try (fetch : Network) (url key : string)
    (ty : EventType) : Exc (list ParsedEvent) :=
  response ← fetch url;
  if negb (ok response) then Ok []
  else
    d ← json response;
    events ← match d !! key with
             | None | Some JFalsy => Ok []
             | Some (JArray es) => Ok es
             | Some JOther => Throw "TypeError: events.map is not a function"
             end;
    Ok (map (λ e, parseEvent e ty) events).

Definition fetchFromUrl (fetch : Network) (url key : string)
    (ty : EventType) : Exc (list ParsedEvent) :=
  try_catch (fetchFromUrl_try fetch url key ty) (λ _, Ok []).

Definition fetchIncidents (fetch : Network) :=
  fetchFromUrl fetch INCIDENTS_URL "incidents" incident.

Definition fetchActiveMaintenances (fetch : Network) :=
  fetchFromUrl fetch MAINTENANCE_ACTIVE_URL "scheduled_maintenances" maintenance.

Definition fetchUpcomingMaintenances (fetch : Network) :=
  fetchFromUrl fetch MAINTENANCE_UPCOMING_URL "scheduled_maintenances" maintenance.

Definition fetchAllEvents (fetch : Network) (includeUpcoming : bool)
    : Exc (list ParsedEvent) :=
  let promises := [fetchIncidents fetch; fetchActiveMaintenances fetch] in
  let promises :=
    if includeUpcoming then promises ++ [fetchUpcomingMaintenances fetch]
    else promises in
  results ← promise_all promises;
  Ok (concat results).


End Feed.

(** ** The subscriptions module *)

Module Subscriptions.

Definition IMPACT_LEVELS : list string := ["none"; "minor"; "major"; "critical"].

(** [`${event.name} ${event.components?.map(c => c.name).join(' ') || ''}`
    .toLowerCase()] *)
Definition eventText (event : ParsedEvent) : string :=
  JS.toLowerCase
    (name (data event) +:+ " " +:+
     JS.or_else
       match components (data event) with
       | Some cs => JS.join " " (map c_name cs)
       | None => ""
       end
       "").

(** [subscription.services.some(s => eventText.includes(s.toLowerCase()))] *)
Definition servicesMatched (event : ParsedEvent) (svcs : list string) : bool :=
  existsb (λ service, JS.includes (eventText event) (JS.toLowerCase service)) svcs.

Definition eventMatchesSubscription (event : ParsedEvent)
    (subscription : UserSubscription) : bool :=
  if bool_decide (eventTypes subscription = "incidents")
     && bool_decide (eventType event = maintenance) then false
  else if bool_decide (eventTypes subscription = "maintenance")
          && bool_decide (eventType event = incident) then false
  else if bool_decide (eventType event = incident)
          && negb (bool_decide (minImpact subscription = MI_none))
          && (let eventImpactIdx := JS.indexOf IMPACT_LEVELS (impact (data event)) in
              let minImpactIdx :=
                JS.indexOf IMPACT_LEVELS (MinImpact_str (minImpact subscription)) in
              (eventImpactIdx <? minImpactIdx)%Z) then false
  else if (0 <? length (services subscription))%nat
          && negb (servicesMatched event (services subscription)) then false
  else true.

End Subscriptions.

(** ** The worker: one poll cycle *)

Module Worker.
Import Subscriptions.

(** A delivery attempt made through [sendEventNotification]. *)
Record Notification := {
  n_chatId : Z;
  n_event : ParsedEvent;
  n_isUpdate : bool;
  n_success : bool;
}.

(** The bindings and collaborators of one invocation: the two KV
    namespaces, the network, the Telegram send outcome and the clock
    readings taken by [loadState] and [saveState]. *)
Record Env := {
  STATE : option BotState;
  subscriber_index : option (list Z);
  SUBSCRIPTIONS : gmap Z UserSubscription;
  fetch : Network;
  send : Z → ParsedEvent → bool → bool;
  now_load : string;
  now_save : string;
}.

Definition getAllSubscriberIds (env : Env) : list Z :=
  default [] (subscriber_index env).

Definition getSubscription (env : Env) (chat : Z) : option UserSubscription :=
  SUBSCRIPTIONS env !! chat.

Definition loadState (kv : option BotState) (now : string) : BotState :=
  match kv with
  | Some st => st
  | None => {| seenIds := []; fingerprints := ∅; lastChecked := now |}
  end.

(** Returns the state as mutated, which is the value put under
    ['bot_state']. *)
Definition saveState (state : BotState) (currentEvents : list ParsedEvent)
    (now : string) : BotState :=
  let currentIds : gset string := list_to_set (map (λ e, id (data e)) currentEvents) in
  let relevantIds := filter (λ i, i ∈ currentIds) (seenIds state) in
  let historicalIds :=
    JS.slice_last 50 (filter (λ i, i ∉ currentIds) (seenIds state)) in
  let seenIds' := relevantIds ++ historicalIds in
  {| seenIds := seenIds';
     fingerprints := filter (λ kv, kv.1 ∈ seenIds') (fingerprints state);
     lastChecked := now |}.

Definition isNew (state : BotState) (event : ParsedEvent) : bool :=
  negb (bool_decide (id (data event) ∈ seenIds state)).

Definition isUpdated (state : BotState) (event : ParsedEvent) : bool :=
  negb (isNew state event)
  && negb (bool_decide (fingerprints state !! id (data event) = Some (fingerprint event))).

(** The inner loop over the subscribers. *)
Definition notifySubscribers (env : Env) (subscriberIds : list Z)
    (event : ParsedEvent) (isUpd : bool) : list Notification :=
  flat_map
    (λ chat,
       match getSubscription env chat with
       | None => []
       | Some subscription =>
           if eventMatchesSubscription event subscription
           then [{| n_chatId := chat; n_event := event; n_isUpdate := isUpd;
                    n_success := send env chat event isUpd |}]
           else []
       end)
    subscriberIds.

(** One iteration of the loop over the events. *)
Definition processEvent (env : Env) (subscriberIds : list Z)
    (acc : BotState * list Notification) (event : ParsedEvent)
    : BotState * list Notification :=
  let '(state, sent) := acc in
  let new := isNew state event in
  let upd := isUpdated state event in
  if negb new && negb upd then (state, sent)
  else
    let sent' := sent ++ notifySubscribers env subscriberIds event upd in
    let seen' :=
      if new then seenIds state ++ [id (data event)] else seenIds state in
    ({| seenIds := seen';
        fingerprints := <[id (data event) := fingerprint event]> (fingerprints state);
        lastChecked := lastChecked state |},
     sent').

(** The cycle once the state, the events and the subscriber ids are at
    hand: the resulting state (as saved) and the delivery attempts. *)
Definition pollAndNotify_from (env : Env) (state : BotState)
    (events : list ParsedEvent) (subscriberIds : list Z)
    : BotState * list Notification :=
  if bool_decide (length subscriberIds = 0%nat) then
    (saveState state events (now_save env), [])
  else
    let '(state', sent) :=
      foldl (processEvent env subscriberIds) (state, []) events in
    (saveState state' events (now_save env), sent).

Definition pollAndNotify (env : Env) : Exc (BotState * list Notification) :=
  let state := loadState (STATE env) (now_load env) in
  events ← Feed.fetchAllEvents (fetch env) true;
  let subscriberIds := getAllSubscriberIds env in
  Ok (pollAndNotify_from env state events subscriberIds).

(** Classification of an event against a state, as read off the two
    flags of the loop. *)
Inductive Classification := NEW | UPDATED | UNCHANGED.

#[global] Instance Classification_eq_dec : EqDecision Classification.
Proof. solve_decision. Defined.

Definition classify (state : BotState) (event : ParsedEvent) : Classification :=
  if isNew state event then NEW
  else if isUpdated state event then UPDATED
  else UNCHANGED.

(** Classification against the stored state, if there is one. *)
Definition classify_in (kv : option BotState) (event : ParsedEvent)
    : option Classification :=
  (λ state, classify state event) <$> kv.

(** The contents of the ['bot_state'] key over the life of a deployment:
    nothing at first, then whatever the last cycle saved. *)
Inductive stored : option BotState → Prop :=
  | stored_initial : stored None
  | stored_cycle env state sent :
      stored (STATE env) →
      pollAndNotify env = Ok (state, sent) →
      stored (Some state).

End Worker.

(** ** Sample data used in the examples *)

Module Sample.
Import EpicStatus Worker.

Definition update (i : string) : StatusUpdate :=
  {| su_id := i; su_status := "investigating"; su_body := "";
     su_created_at := "2024-01-01T00:00:00Z" |}.

Definition component (n : string) : Component :=
  {| c_id := n; c_name := n; c_status := "operational" |}.

Definition event (i title st imp : string) (ups : list string)
    (comps : list string) : StatusEvent :=
  {| id := i; name := title; status := st; impact := imp;
     shortlink := ""; created_at := ""; updated_at := "";
     incident_updates := Some (map update ups);
     components := Some (map component comps);
     scheduled_for := None; scheduled_until := None |}.

Definition sub (svcs : list string) (mi : MinImpact) (tys : string)
    : UserSubscription :=
  {| chatId := 1; services := svcs; minImpact := mi; eventTypes := tys;
     createdAt := ""; updatedAt := "" |}.

Definition state (seen : list string) (fps : list (string * string)) : BotState :=
  {| seenIds := seen; fingerprints := list_to_map fps; lastChecked := "" |}.

(** A feed serving the given incidents and no maintenance. *)
Definition feed (incidents : list StatusEvent) : Network :=
  λ url,
    if decide (url = Feed.INCIDENTS_URL)
    then Ok {| ok := true; resp_status := 200;
               json := Ok {[ "incidents" := JArray incidents ]} |}
    else Ok {| ok := true; resp_status := 200;
               json := Ok {[ "scheduled_maintenances" := JArray [] ]} |}.

(** A feed whose incidents endpoint cannot be reached and whose upcoming
    maintenance endpoint answers 503; active maintenance is served. *)
Definition feed_partial (maint : list StatusEvent) : Network :=
  λ url,
    if decide (url = Feed.INCIDENTS_URL) then Throw "network error"
    else if decide (url = Feed.MAINTENANCE_UPCOMING_URL)
    then Ok {| ok := false; resp_status := 503; json := Throw "no body" |}
    else Ok {| ok := true; resp_status := 200;
               json := Ok {[ "scheduled_maintenances" := JArray maint ]} |}.

(** Fifty incident ids ["h01"] ... ["h50"]. *)
Definition hid (n : nat) : string :=
  String "h" (String (ascii_of_nat (48 + n / 10))
                (String (ascii_of_nat (48 + n mod 10)) "")).

Definition hids : list string := map hid (seq 1 50).

Definition incident_of (i : string) : StatusEvent :=
  event i "Incident" "investigating" "minor" ["1"] [].

Definition env (st : option BotState) (ids : list Z)
    (subs : list (Z * UserSubscription)) (net : Network) : Env :=
  {| STATE := st; subscriber_index := Some ids;
     SUBSCRIPTIONS := list_to_map subs; fetch := net;
     send := λ _ _ _, true; now_load := "t0"; now_save := "t1" |}.

(** One cycle for a single subscriber without filters, against a feed
    serving incidents with the given ids; the result is the new content
    of the store. *)
Definition run_cycle (kv : option BotState) (incidents : list string)
    : option BotState :=
  match pollAndNotify
          (env kv [1%Z] [(1%Z, sub [] MI_none "all")]
             (feed (map incident_of incidents))) with
  | Ok (st, _) => Some st
  | Throw _ => None
  end.

End Sample.

(** ** Notions used to state the properties

    These are the specification's words, kept apart from the code above:
    substring containment, the order on impact levels, and the haystack a
    service filter is searched in. *)

Module Spec.

(** [t] occurs in [s] as a contiguous substring. *)
Definition occurs_in (t s : string) : Prop :=
  ∃ pre post, s = pre +:+ t +:+ post.


(** The total order [none < minor < major < critical]. *)
Definition impactRank (l : MinImpact) : nat :=
  match l with
  | MI_none => 0
  | MI_minor => 1
  | MI_major => 2
  | MI_critical => 3
  end.



Definition ends_with_space (s : string) : Prop :=
  ∃ s', s = s' +:+ " ".

(** The ids of the events of a snapshot, in feed order. *)
Definition eventIds (events : list ParsedEvent) : list string :=
  map (λ e, id (data e)) events.

(** The domain of [fingerprints] lies within [seenIds]. *)
Definition fingerprints_within_seen (state : BotState) : Prop :=
  ∀ i, is_Some (fingerprints state !! i) → i ∈ seenIds state.

End Spec.

(** ** The subscriptions module: storage

    The [SUBSCRIPTIONS] namespace holds one record per chat under
    [sub:<chatId>] and the list of subscribed chats under
    [subscriber_index]; these are the [SUBSCRIPTIONS] and
    [subscriber_index] fields of [Worker.Env].  Writes are taken to
    succeed. *)

Module SubscriptionStore.
Import Subscriptions Worker.

(** [Partial<UserSubscription>], as far as [saveSubscription] reads it. *)
Record PartialSubscription := {
  p_services : option (list string);
  p_minImpact : option MinImpact;
  p_eventTypes : option string;
}.

(** The environment after the namespace has been written to. *)
Definition with_subscriptions (env : Env) (subs : gmap Z UserSubscription)
    (index : option (list Z)) : Env :=
  {| STATE := STATE env; subscriber_index := index; SUBSCRIPTIONS := subs;
     fetch := fetch env; send := send env;
     now_load := now_load env; now_save := now_save env |}.

Definition addToSubscriberIndex (env : Env) (chat : Z) : Env :=
  let ids := getAllSubscriberIds env in
  if negb (bool_decide (chat ∈ ids))
  then with_subscriptions env (SUBSCRIPTIONS env) (Some (ids ++ [chat]))
  else env.

Definition removeFromSubscriberIndex (env : Env) (chat : Z) : Env :=
  let ids := getAllSubscriberIds env in
  let filtered := filter (λ i, i ≠ chat) ids in
  with_subscriptions env (SUBSCRIPTIONS env) (Some filtered).

Definition saveSubscription (env : Env) (chat : Z)
    (subscription : PartialSubscription) (now : string)
    : Env * UserSubscription :=
  let existing := getSubscription env chat in
  let updated :=
    {| chatId := chat;
       services :=
         default (default [] (services <$> existing)) (p_services subscription);
       minImpact :=
         default (default MI_none (minImpact <$> existing)) (p_minImpact subscription);
       eventTypes :=
         default (default "all" (eventTypes <$> existing)) (p_eventTypes subscription);
       createdAt := default now (createdAt <$> existing);
       updatedAt := now |} in
  let env' :=
    with_subscriptions env (<[chat := updated]> (SUBSCRIPTIONS env))
      (subscriber_index env) in
  (addToSubscriberIndex env' chat, updated).

Definition deleteSubscription (env : Env) (chat : Z) : Env :=
  let env' :=
    with_subscriptions env (delete chat (SUBSCRIPTIONS env)) (subscriber_index env) in
  removeFromSubscriberIndex env' chat.

Definition getMatchingSubscriptions (env : Env) (event : ParsedEvent)
    : list UserSubscription :=
  flat_map
    (λ chat,
       match getSubscription env chat with
       | Some subscription =>
           if eventMatchesSubscription event subscription then [subscription] else []
       | None => []
       end)
    (getAllSubscriberIds env).

(** The index lists exactly the chats that have a record, once each, and
    each record carries the id of the chat it is stored under. *)
Definition well_indexed (env : Env) : Prop :=
  NoDup (getAllSubscriberIds env)
  ∧ (∀ chat, chat ∈ getAllSubscriberIds env ↔ is_Some (getSubscription env chat))
  ∧ (∀ chat subscription,
       getSubscription env chat = Some subscription → chatId subscription = chat).

End SubscriptionStore.

(** ** More JavaScript string functions

    White space is the ASCII white space: tab, line feed, vertical tab,
    form feed, carriage return and space. *)

Module JSText.

Definition nl : string := String (ascii_of_nat 10) "".

Definition is_space (c : ascii) : bool :=
  let n := nat_of_ascii c in
  ((9 <=? n) && (n <=? 13) || (n =? 32))%nat.

(** [s.trimStart()] *)
Fixpoint trimStart (s : string) : string :=
  match s with
  | EmptyString => EmptyString
  | String c s' => if is_space c then trimStart s' else s
  end.

(** [s.trimEnd()] *)
Fixpoint trimEnd (s : string) : string :=
  match s with
  | EmptyString => EmptyString
  | String c s' =>
      let r := trimEnd s' in
      if is_space c && bool_decide (r = "") then "" else String c r
  end.

(** [s.trim()] *)
Definition trim (s : string) : string := trimEnd (trimStart s).

(** [s.split(/\s+/)]: the pieces between the maximal runs of white space.
    [cur] is the piece being read; [skipping] says that the previous
    character was white space. *)
Fixpoint split_ws_go (cur : string) (skipping : bool) (s : string) : list string :=
  match s with
  | EmptyString => [cur]
  | String c s' =>
      if is_space c then
        if skipping then split_ws_go cur true s'
        else cur :: split_ws_go "" true s'
      else split_ws_go (cur +:+ String c "") false s'
  end.

Definition split_ws (s : string) : list string := split_ws_go "" false s.

(** [s.slice(0, n)] *)
Fixpoint slice_to (n : nat) (s : string) : string :=
  match n, s with
  | S n', String c s' => String c (slice_to n' s')
  | _, _ => ""
  end.

(** [s.replace(/c/g, r)] for a pattern of one character. *)
Fixpoint replaceAll (c : ascii) (r : string) (s : string) : string :=
  match s with
  | EmptyString => EmptyString
  | String a s' =>
      (if decide (a = c) then r else String a "") +:+ replaceAll c r s'
  end.

End JSText.

(** ** [telegram.ts]: escaping *)

Module Telegram.

Definition escapeHtml (text : string) : string :=
  JSText.replaceAll ">" "&gt;"
    (JSText.replaceAll "<" "&lt;"
       (JSText.replaceAll "&" "&amp;" text)).

(** What the three passes make of one character. *)
Definition escapeChar (c : ascii) : string :=
  if decide (c = "&"%char) then "&amp;"
  else if decide (c = "<"%char) then "&lt;"
  else if decide (c = ">"%char) then "&gt;"
  else String c "".

(** The characters of a string. *)
Definition chars (s : string) : list ascii := list_ascii_of_string s.

End Telegram.

(** ** The subscriptions module: display *)

Module SubscriptionText.
Import JSText.

Definition SUB_TITLE : string :=
  "ðŸ“‹ <b>Your Subscription</b>".

Definition SUB_SERVICES_ALL : string :=
  "ðŸŽ® Services: <i>All services</i>".

Definition SUB_SERVICES : string :=
  "ðŸŽ® Services: ".

Definition SUB_MIN_IMPACT : string :=
  "âš¡ Min Impact: ".

Definition SUB_EVENT_TYPES : string :=
  "ðŸ“Œ Event Types: ".

Definition SUB_SUBSCRIBED : string :=
  "ðŸ“… Subscribed: ".

Definition formatSubscription (sub : UserSubscription) : string :=
  let lines := [SUB_TITLE; ""] in
  let lines :=
    if bool_decide (length (services sub) = 0)
    then lines ++ [SUB_SERVICES_ALL]
    else lines ++ [SUB_SERVICES +:+ JS.join ", " (services sub)] in
  let lines := lines ++ [SUB_MIN_IMPACT +:+ MinImpact_str (minImpact sub)] in
  let lines := lines ++ [SUB_EVENT_TYPES +:+ eventTypes sub] in
  let lines := lines ++ [""] in
  let lines := lines ++ [SUB_SUBSCRIBED +:+ slice_to 10 (createdAt sub)] in
  JS.join nl lines.

End SubscriptionText.

(** ** [commands.ts]

    A handler returns the environment as it leaves it and the messages it
    sent through [sendMessage], in order, as pairs of chat id and text. *)

Record TelegramMessage := {
  message_id : Z;
  chat_id : Z;
  date : Z;
  text : option string;
}.

Record TelegramUpdate := {
  update_id : Z;
  message : option TelegramMessage;
}.

Module Commands.
Import JSText Worker SubscriptionStore SubscriptionText.

Definition Sent := list (Z * string).

Definition KNOWN_SERVICES : list string :=
  [ "Fortnite"; "Rocket League"; "Fall Guys"; "Epic Games Store";
    "Epic Online Services"; "Unreal Engine"; "UEFN"; "Fab"; "MetaHuman";
    "ArtStation"; "Sketchfab" ].

Definition MSG_UNKNOWN_COMMAND : string :=
  "❓ Unknown command. Use /help to see available commands.".

(** The welcome template of [handleStart], trimmed. *)
Definition MSG_START : string :=
  JS.join nl
    [ "🎮 <b>Epic Games Status Bot</b>";
     "";
     "Welcome! You're now subscribed to Epic Games status updates.";
     "";
     "<b>Default settings:</b>";
     "• All services (Fortnite, Rocket League, etc.)";
     "• All event types (incidents + maintenance)";
     "• All impact levels";
     "";
     "<b>Customize with:</b>";
     "/filter fortnite - Only Fortnite updates";
     "/filter incidents - Only incidents, no maintenance";
     "/settings - View current settings";
     "/help - All commands";
     "";
     "You'll receive notifications when Epic Games services have issues or scheduled maintenance." ].

Definition MSG_SUBSCRIBED_ALL : string :=
  "✅ Subscribed to <b>all Epic Games services</b>!".

Definition MSG_SUBSCRIBE_TAIL : string :=
  JS.join nl
    [ "";
     "";
     "Use /settings to view your subscription or /filter to customize." ].

Definition MSG_UNSUBSCRIBED : string :=
  JS.join nl
    [ "👋 Unsubscribed from Epic Games status updates.";
     "";
     "Use /start to subscribe again." ].

Definition MSG_SETTINGS_NOT_SUBSCRIBED : string :=
  JS.join nl
    [ "❌ You're not subscribed yet.";
     "";
     "Use /start to subscribe." ].

(** The help template of [handleFilter] up to the list of known services. *)
Definition MSG_FILTER_HELP_HEAD : string :=
  JS.join nl
    [ "🔧 <b>Filter Options</b>";
     "";
     "<b>By service:</b>";
     "/filter fortnite";
     "/filter rocket league";
     "/filter epic games store";
     "/filter all (reset to all services)";
     "";
     "<b>By event type:</b>";
     "/filter incidents (no maintenance)";
     "/filter maintenance (no incidents)";
     "/filter events all (both)";
     "";
     "<b>By impact (incidents only):</b>";
     "/filter impact minor";
     "/filter impact major";
     "/filter impact critical";
     "";
     "<b>Known services:</b>" ].

Definition MSG_FILTER_NOT_SUBSCRIBED : string :=
  "❌ You're not subscribed yet. Use /start first.".

Definition MSG_FILTER_ALL : string :=
  "✅ Now watching <b>all services</b>".

Definition MSG_FILTER_INCIDENTS : string :=
  "✅ Now only receiving <b>incident</b> notifications (no maintenance)".

Definition MSG_FILTER_MAINTENANCE : string :=
  "✅ Now only receiving <b>maintenance</b> notifications (no incidents)".

Definition MSG_FILTER_EVENTS_ALL : string :=
  "✅ Now receiving <b>all event types</b>".

Definition MSG_FILTER_EVENTS_USAGE : string :=
  "❓ Use: /filter events all".

Definition MSG_FILTER_IMPACT_USAGE : string :=
  "❓ Use: /filter impact none|minor|major|critical".

Definition MSG_STATUS_CHECKING : string :=
  "🔄 Checking Epic Games status...".

Definition MSG_STATUS_OPERATIONAL : string :=
  JS.join nl
    [ "✅ <b>All systems operational!</b>";
     "";
     "No active incidents or scheduled maintenance." ].

(** The help template of [handleHelp], trimmed. *)
Definition MSG_HELP : string :=
  JS.join nl
    [ "🎮 <b>Epic Games Status Bot</b>";
     "";
     "<b>Commands:</b>";
     "/start - Subscribe to updates";
     "/unsubscribe - Stop receiving updates";
     "/settings - View your subscription";
     "/status - Check current Epic status";
     "/filter - Customize what you receive";
     "/help - Show this message";
     "";
     "<b>Filter examples:</b>";
     "/filter fortnite - Only Fortnite";
     "/filter rocket league - Add Rocket League";
     "/filter incidents - No maintenance alerts";
     "/filter impact major - Only major+ incidents";
     "";
     "<b>Links:</b>";
     "🔗 status.epicgames.com" ].

Definition no_fields : PartialSubscription :=
  {| p_services := None; p_minImpact := None; p_eventTypes := None |}.

Definition handleStart (env : Env) (chat : Z) (now : string) : Env * Sent :=
  let env' := (saveSubscription env chat no_fields now).1 in
  (env', [(chat, MSG_START)]).

Definition handleSubscribe (env : Env) (chat : Z) (args : list string)
    (now : string) : Env * Sent :=
  let svcs := if (0 <? length args)%nat then args else [] in
  let env' :=
    (saveSubscription env chat
       {| p_services := Some svcs; p_minImpact := None; p_eventTypes := None |}
       now).1 in
  let message :=
    if bool_decide (length svcs = 0) then MSG_SUBSCRIBED_ALL
    else "✅ Subscribed to: <b>" +:+ JS.join ", " svcs +:+ "</b>" in
  (env', [(chat, message +:+ MSG_SUBSCRIBE_TAIL)]).

Definition handleUnsubscribe (env : Env) (chat : Z) : Env * Sent :=
  (deleteSubscription env chat, [(chat, MSG_UNSUBSCRIBED)]).

Definition handleSettings (env : Env) (chat : Z) : Env * Sent :=
  match getSubscription env chat with
  | None => (env, [(chat, MSG_SETTINGS_NOT_SUBSCRIBED)])
  | Some subscription => (env, [(chat, formatSubscription subscription)])
  end.

(** The cast of a checked string to the type of [minImpact]. *)
Definition MinImpact_of_str (s : string) : option MinImpact :=
  if decide (s = "none") then Some MI_none
  else if decide (s = "minor") then Some MI_minor
  else if decide (s = "major") then Some MI_major
  else if decide (s = "critical") then Some MI_critical
  else None.

(** The [default] branch of [handleFilter]: toggle a service name. *)
Definition toggleService (currentServices : list string) (serviceName : string)
    : list string :=
  if decide (JS.toLowerCase serviceName = "all") then []
  else if bool_decide (length currentServices = 0) then [serviceName]
  else if bool_decide
            (JS.toLowerCase serviceName ∈ map JS.toLowerCase currentServices)
  then
    let newServices :=
      filter (λ s, JS.toLowerCase s ≠ JS.toLowerCase serviceName) currentServices in
    if bool_decide (length newServices = 0) then [] else newServices
  else currentServices ++ [serviceName].

Definition handleFilter (env : Env) (chat : Z) (args : list string)
    (now : string) : Env * Sent :=
  match args with
  | [] =>
      (env, [(chat, MSG_FILTER_HELP_HEAD +:+ nl +:+ JS.join ", " KNOWN_SERVICES)])
  | arg0 :: rest =>
      match getSubscription env chat with
      | None => (env, [(chat, MSG_FILTER_NOT_SUBSCRIBED)])
      | Some subscription =>
          let filterType := JS.toLowerCase arg0 in
          let filterValue := JS.toLowerCase (JS.join " " rest) in
          let save p := (saveSubscription env chat p now).1 in
          let '(env', message) :=
            if decide (filterType = "all") then
              (save {| p_services := Some []; p_minImpact := None;
                       p_eventTypes := None |},
               MSG_FILTER_ALL)
            else if decide (filterType = "incidents") then
              (save {| p_services := None; p_minImpact := None;
                       p_eventTypes := Some "incidents" |},
               MSG_FILTER_INCIDENTS)
            else if decide (filterType = "maintenance") then
              (save {| p_services := None; p_minImpact := None;
                       p_eventTypes := Some "maintenance" |},
               MSG_FILTER_MAINTENANCE)
            else if decide (filterType = "events") then
              if decide (filterValue = "all") then
                (save {| p_services := None; p_minImpact := None;
                         p_eventTypes := Some "all" |},
                 MSG_FILTER_EVENTS_ALL)
              else (env, MSG_FILTER_EVENTS_USAGE)
            else if decide (filterType = "impact") then
              match MinImpact_of_str filterValue with
              | Some m =>
                  (save {| p_services := None; p_minImpact := Some m;
                           p_eventTypes := None |},
                   "✅ Minimum impact set to <b>" +:+ filterValue +:+ "</b>")
              | None => (env, MSG_FILTER_IMPACT_USAGE)
              end
            else
              let serviceName := JS.join " " args in
              let newServices := toggleService (services subscription) serviceName in
              (save {| p_services := Some newServices; p_minImpact := None;
                       p_eventTypes := None |},
               if bool_decide (length newServices = 0) then MSG_FILTER_ALL
               else "✅ Now watching: <b>" +:+ JS.join ", " newServices +:+ "</b>")
          in
          (env', [(chat, message)])
      end
  end.

(** The lines [handleStatus] writes for one event. *)
Definition statusEntry (event : ParsedEvent) : string :=
  let emoji := if bool_decide (eventType event = incident) then "🚨" else "🔧" in
  nl +:+ emoji +:+ " <b>" +:+ name (data event) +:+ "</b>"
  +:+ nl +:+ "   Status: " +:+ status (data event)
  +:+ (if bool_decide (shortlink (data event) ≠ "")
       then nl +:+ "   " +:+ shortlink (data event) else "")
  +:+ nl.

Definition handleStatus (env : Env) (chat : Z) : Exc (Env * Sent) :=
  let first := (chat, MSG_STATUS_CHECKING) in
  events ← Feed.fetchAllEvents (fetch env) true;
  if bool_decide (length events = 0) then
    Ok (env, [first; (chat, MSG_STATUS_OPERATIONAL)])
  else
    let incidents := filter (λ e, eventType e = incident) events in
    let maintenances := filter (λ e, eventType e = maintenance) events in
    let message :=
      "📊 <b>Epic Games Status</b>" +:+ nl
      +:+ nl +:+ "🚨 " +:+ pretty (length incidents) +:+ " active incident(s)"
      +:+ nl +:+ "🔧 " +:+ pretty (length maintenances) +:+ " maintenance(s)" +:+ nl in
    let message := foldl (λ m e, m +:+ statusEntry e) message (take 5 events) in
    let message :=
      if (5 <? length events)%nat
      then message +:+ nl +:+ "<i>...and " +:+ pretty (length events - 5) +:+ " more</i>"
      else message in
    Ok (env, [first; (chat, message)]).

Definition handleHelp (env : Env) (chat : Z) : Env * Sent :=
  (env, [(chat, MSG_HELP)]).

Definition handleMessage (env : Env) (message : TelegramMessage) (now : string)
    : Exc (Env * Sent) :=
  let chat := chat_id message in
  let text := JS.or_else (default "" (trim <$> text message)) "" in
  match split_ws text with
  | [] => Throw "TypeError: command is undefined"
  | command :: args =>
      let lowerCommand := JS.toLowerCase command in
      if decide (lowerCommand = "/start") then Ok (handleStart env chat now)
      else if decide (lowerCommand = "/subscribe") then
        Ok (handleSubscribe env chat args now)
      else if decide (lowerCommand = "/unsubscribe") then
        Ok (handleUnsubscribe env chat)
      else if decide (lowerCommand = "/settings") then Ok (handleSettings env chat)
      else if decide (lowerCommand = "/filter") then
        Ok (handleFilter env chat args now)
      else if decide (lowerCommand = "/status") then handleStatus env chat
      else if decide (lowerCommand = "/help") then Ok (handleHelp env chat)
      else if JS.startsWith text "/" then Ok (env, [(chat, MSG_UNKNOWN_COMMAND)])
      else Ok (env, [])
  end.

End Commands.

(** ** The worker's HTTP and cron entry points *)

Module Entry.
Import Worker Commands.

(** What the handler reads of a request: path, method, origin, the
    [X-Telegram-Bot-Api-Secret-Token] header and the outcome of
    [request.json()]. *)
Record Request := {
  pathname : string;
  method : string;
  protocol : string;
  host : string;
  secret_header : option string;
  body : Exc TelegramUpdate;
}.

Record Response' := {
  r_text : string;
  r_status : Z;
}.

(** The bindings beside the two namespaces, and the answer of Telegram's
    [setWebhook] to a URL and secret. *)
Record Config := {
  WEBHOOK_SECRET : option string;
  setWebhook : string → option string → bool;
}.

(** What an invocation leaves behind: the environment, the messages sent to
    chats and the notifications attempted. *)
Record Outcome := {
  o_env : Env;
  o_sent : Sent;
  o_notified : list Notification;
}.

Definition unchanged (env : Env) : Outcome :=
  {| o_env := env; o_sent := []; o_notified := [] |}.

Definition with_state (env : Env) (state : BotState) : Env :=
  {| STATE := Some state; subscriber_index := subscriber_index env;
     SUBSCRIPTIONS := SUBSCRIPTIONS env; fetch := Worker.fetch env;
     send := send env; now_load := now_load env; now_save := now_save env |}.

(** [pollAndNotify] with its write to the [STATE] namespace. *)
Definition poll (env : Env) : Exc Outcome :=
  r ← pollAndNotify env;
  Ok {| o_env := with_state env r.1; o_sent := []; o_notified := r.2 |}.

Definition handleSetup (cfg : Config) (request : Request) : Response' :=
  let workerUrl := protocol request +:+ "//" +:+ host request +:+ "/webhook" in
  if setWebhook cfg workerUrl (WEBHOOK_SECRET cfg)
  then {| r_text := "✅ Webhook registered: " +:+ workerUrl; r_status := 200 |}
  else {| r_text := "❌ Failed to register webhook"; r_status := 500 |}.

Definition secret_configured (cfg : Config) : bool :=
  match WEBHOOK_SECRET cfg with
  | Some s => negb (bool_decide (s = ""))
  | None => false
  end.

Definition handleWebhook (cfg : Config) (env : Env) (request : Request)
    (now : string) : Response' * Outcome :=
  if secret_configured cfg
     && negb (bool_decide (secret_header request = WEBHOOK_SECRET cfg))
  then ({| r_text := "Unauthorized"; r_status := 401 |}, unchanged env)
  else
    match
      update ← body request;
      match message update with
      | Some m =>
          r ← handleMessage env m now;
          Ok {| o_env := r.1; o_sent := r.2; o_notified := [] |}
      | None => Ok (unchanged env)
      end
    with
    | Ok outcome => ({| r_text := "OK"; r_status := 200 |}, outcome)
    | Throw _ =>
        ({| r_text := "Error processing update"; r_status := 500 |}, unchanged env)
    end.

(** The [fetch] handler of the worker. *)
Definition handleRequest (cfg : Config) (env : Env) (request : Request)
    (now : string) : Exc (Response' * Outcome) :=
  if decide (pathname request = "/setup") then
    Ok (handleSetup cfg request, unchanged env)
  else if decide (pathname request = "/health") then
    Ok ({| r_text := "OK"; r_status := 200 |}, unchanged env)
  else if bool_decide (pathname request = "/webhook")
          && bool_decide (method request = "POST") then
    Ok (handleWebhook cfg env request now)
  else if bool_decide (pathname request = "/poll")
          && bool_decide (method request = "POST") then
    outcome ← poll env;
    Ok ({| r_text := "Poll completed"; r_status := 200 |}, outcome)
  else Ok ({| r_text := "Not found"; r_status := 404 |}, unchanged env).

(** The [scheduled] handler. *)
Definition scheduled (env : Env) : Exc Outcome := poll env.

End Entry.

(** ** Notions used to state the properties of the commands *)

Module CmdSpec.
Import Worker SubscriptionStore Commands.

(** The first words [handleFilter] treats as keywords. *)
Definition FILTER_KEYWORDS : list string :=
  ["all"; "incidents"; "maintenance"; "events"; "impact"].

(** What a command does to the subscriptions namespace. *)
Inductive Effect :=
  | E_none
  | E_delete
  | E_save (p : PartialSubscription).

Definition apply_effect (env : Env) (chat : Z) (now : string) (eff : Effect) : Env :=
  match eff with
  | E_none => env
  | E_delete => deleteSubscription env chat
  | E_save p => (saveSubscription env chat p now).1
  end.

(** No character of the string is white space. *)
Definition no_space (s : string) : Prop :=
  ∀ c, c ∈ list_ascii_of_string s → JSText.is_space c = false.

(** Every stored event-type filter is one of the three the matcher
    knows. *)
Definition eventTypes_valid (env : Env) : Prop :=
  ∀ chat s, getSubscription env chat = Some s →
    eventTypes s ∈ ["all"; "incidents"; "maintenance"].

(** No stored service filter ends in a space. *)
Definition services_tidy (env : Env) : Prop :=
  ∀ chat s f, getSubscription env chat = Some s → f ∈ services s →
    ¬ Spec.ends_with_space f.

(** The text [handleMessage] works on. *)
Definition text_of (m : TelegramMessage) : string :=
  JS.or_else (default "" (JSText.trim <$> text m)) "".

(** The writes [handleFilter] can make for given arguments. *)
Definition filter_effect (env : Env) (chat : Z) (args : list string)
    (eff : Effect) : Prop :=
  match eff with
  | E_none => True
  | E_delete => False
  | E_save p =>
      ∃ sub, getSubscription env chat = Some sub ∧
        (p = {| p_services := Some []; p_minImpact := None; p_eventTypes := None |}
         ∨ (∃ t, t ∈ ["all"; "incidents"; "maintenance"]
                 ∧ p = {| p_services := None; p_minImpact := None;
                          p_eventTypes := Some t |})
         ∨ (∃ m, p = {| p_services := None; p_minImpact := Some m;
                        p_eventTypes := None |})
         ∨ (∃ arg0 rest,
              args = arg0 :: rest
              ∧ (JS.toLowerCase arg0 ∉ FILTER_KEYWORDS)
              ∧ p = {| p_services :=
                         Some (toggleService (services sub) (JS.join " " args));
                       p_minImpact := None; p_eventTypes := None |}))
  end.

(** The writes [handleMessage] can make for a given message. *)
Definition message_effect (env : Env) (m : TelegramMessage) (eff : Effect) : Prop :=
  match eff with
  | E_none | E_delete => True
  | E_save p =>
      p = no_fields
      ∨ ∃ command args,
          JSText.split_ws (text_of m) = command :: args
          ∧ (p = {| p_services := Some args; p_minImpact := None;
                    p_eventTypes := None |}
             ∨ filter_effect env (chat_id m) args (E_save p))
  end.

(** What the worker keeps true of its two namespaces. *)
Definition consistent (env : Env) : Prop :=
  well_indexed env ∧ eventTypes_valid env ∧ services_tidy env
  ∧ stored (STATE env).

End CmdSpec.

(** ** Further notions: invariants of the stored state and of a cycle *)

Module Inv.
Import Worker.

(** Every seen id has a fingerprint on record. *)
Definition seen_have_fingerprints (state : BotState) : Prop :=
  ∀ i, i ∈ seenIds state → is_Some (fingerprints state !! i).


(** The delivery attempts owed for an event, given its class against the
    state the cycle started from. *)
Definition dispatched (env : Env) (subscriberIds : list Z) (state : BotState)
    (event : ParsedEvent) : list Notification :=
  match classify state event with
  | UNCHANGED => []
  | NEW => notifySubscribers env subscriberIds event false
  | UPDATED => notifySubscribers env subscriberIds event true
  end.

End Inv.

(** ** More sample data *)

Module Sample2.
Import EpicStatus Worker.

Definition ev (i : string) : ParsedEvent := parseEvent (Sample.incident_of i) incident.

Definition subscriber_all : list (Z * UserSubscription) :=
  [(1%Z, Sample.sub [] MI_none "all")].

(** One subscriber without filters; the feed serves incident ["a"]. *)
Definition env_a : Env :=
  Sample.env None [1%Z] subscriber_all (Sample.feed [Sample.incident_of "a"]).

(** Two listed chats, of which only chat 2 has a subscription, for major
    incidents only; every delivery fails. *)
Definition env_failing : Env :=
  {| STATE := None; subscriber_index := Some [2%Z; 3%Z];
     SUBSCRIPTIONS := {[ 2%Z := Sample.sub [] MI_major "all" ]};
     fetch := Sample.feed [Sample.incident_of "a"];
     send := λ _ _ _, false; now_load := "t0"; now_save := "t1" |}.

Definition empty_state : BotState := loadState None "t0".

Definition first_cycle : BotState * list Notification :=
  pollAndNotify_from env_a empty_state [ev "a"; ev "b"] [1%Z].

(** No subscriber yet. *)
Definition env0 : Env := Sample.env None [] [] (Sample.feed []).

Definition only_services (svcs : list string) : SubscriptionStore.PartialSubscription :=
  {| SubscriptionStore.p_services := Some svcs;
     SubscriptionStore.p_minImpact := None;
     SubscriptionStore.p_eventTypes := None |}.

Definition only_impact (m : MinImpact) : SubscriptionStore.PartialSubscription :=
  {| SubscriptionStore.p_services := None;
     SubscriptionStore.p_minImpact := Some m;
     SubscriptionStore.p_eventTypes := None |}.

(** Chat 7 subscribes to ["fortnite"] at ["t1"]. *)
Definition env7 : Env :=
  (SubscriptionStore.saveSubscription env0 7 (only_services ["fortnite"]) "t1").1.

(** Then chat 8 subscribes to everything at ["t2"]. *)
Definition env78 : Env :=
  (SubscriptionStore.saveSubscription env7 8 (only_services []) "t2").1.

End Sample2.

(** ** Sample messages and requests *)

Module Sample3.

Definition msg (chat : Z) (t : string) : TelegramMessage :=
  {| message_id := 1; chat_id := chat; date := 0; text := Some t |}.

Definition cfg : Entry.Config :=
  {| Entry.WEBHOOK_SECRET := Some "s3cret"; Entry.setWebhook := λ _ _, true |}.

(** An update posted to the webhook with the given secret header. *)
Definition webhook (secret : option string) (chat : Z) (t : string) : Entry.Request :=
  {| Entry.pathname := "/webhook"; Entry.method := "POST";
     Entry.protocol := "https:"; Entry.host := "bot.example";
     Entry.secret_header := secret;
     Entry.body := Ok {| update_id := 1; message := Some (msg chat t) |} |}.


(** The subscription of chat 7 in [Sample2.env7]. *)
Definition sub7 : UserSubscription :=
  {| chatId := 7; services := ["fortnite"]; minImpact := MI_none;
     eventTypes := "all"; createdAt := "t1"; updatedAt := "t1" |}.

End Sample3.

(** * Properties *)

(** ** Strings *)

Section string_facts.
Implicit Types s t p : string.

Lemma str_app_cons c s t : String c s +:+ t = String c (s +:+ t).
Proof. reflexivity. Qed.

Lemma str_app_nil_l s : "" +:+ s = s.
Proof. reflexivity. Qed.


Lemma str_app_assoc s t p : (s +:+ t) +:+ p = s +:+ (t +:+ p).
Proof.
  induction s as [|c s IH]; [done|]. by rewrite !str_app_cons, IH.
Qed.

Lemma str_length_app s t :
  String.length (s +:+ t) = (String.length s + String.length t)%nat.
Proof.
  induction s as [|c s IH]; [done|]. rewrite str_app_cons. simpl. by rewrite IH.
Qed.

(** Appending the same suffix is injective. *)
Lemma str_app_inv_tail s1 s2 t : s1 +:+ t = s2 +:+ t → s1 = s2.
Proof.
  revert s2. induction s1 as [|c s1 IH]; intros [|d s2] H.
  - done.
  - apply (f_equal String.length) in H.
    rewrite str_app_cons, str_app_nil_l in H. simpl in H.
    rewrite str_length_app in H. lia.
  - apply (f_equal String.length) in H.
    rewrite str_app_cons, str_app_nil_l in H. simpl in H.
    rewrite str_length_app in H. lia.
  - rewrite !str_app_cons in H. injection H as -> H. f_equal. by apply IH.
Qed.


Lemma toLowerCase_length s : String.length (JS.toLowerCase s) = String.length s.
Proof. induction s as [|c s IH]; simpl; [done | by rewrite IH]. Qed.

Lemma startsWith_spec s p :
  JS.startsWith s p = true ↔ ∃ post, s = p +:+ post.
Proof.
  revert s. induction p as [|a p IH]; intros s; simpl.
  - split; [intros _; by exists s | done].
  - destruct s as [|b s].
    + split; [done | intros [post H]; by rewrite str_app_cons in H].
    + destruct (decide (a = b)) as [->|Hne].
      * rewrite IH. split; intros [post H]; exists post.
        -- by rewrite str_app_cons, H.
        -- rewrite str_app_cons in H. congruence.
      * split; [done | intros [post H]].
        rewrite str_app_cons in H. congruence.
Qed.

(** [includes] decides occurrence as a contiguous substring. *)
Lemma includes_spec s t :
  JS.includes s t = true ↔ ∃ pre post, s = pre +:+ t +:+ post.
Proof.
  induction s as [|c s IH]; simpl.
  - rewrite orb_false_r, startsWith_spec. split.
    + intros [post H]. by exists "", post.
    + intros [[|d pre] [post H]]; [by exists post |].
      by rewrite str_app_cons in H.
  - rewrite orb_true_iff, startsWith_spec, IH. split.
    + intros [[post H] | (pre & post & H)].
      * by exists "", post.
      * exists (String c pre), post. by rewrite str_app_cons, H.
    + intros ([|d pre] & post & H).
      * left. by exists post.
      * right. exists pre, post. rewrite str_app_cons in H. congruence.
Qed.


Lemma str_snoc_inv s1 s2 c1 c2 :
  s1 +:+ String c1 "" = s2 +:+ String c2 "" → s1 = s2 ∧ c1 = c2.
Proof.
  revert s2. induction s1 as [|a s1 IH]; intros [|b s2] H;
    rewrite ?str_app_cons, ?str_app_nil_l in H.
  - by injection H as ->.
  - injection H as _ H. apply (f_equal String.length) in H.
    rewrite str_length_app in H. simpl in H. lia.
  - injection H as _ H. apply (f_equal String.length) in H.
    rewrite str_length_app in H. simpl in H. lia.
  - injection H as -> H. apply IH in H as [-> ->]. done.
Qed.


Lemma includes_empty s : JS.includes s "" = true.
Proof. apply includes_spec. by exists "", s. Qed.

End string_facts.

(** ** Fingerprints *)

Section fingerprint.
Import EpicStatus.

Lemma latestUpdateId_first (e : StatusEvent) :
  latestUpdateId e =
    match incident_updates e with
    | Some (u :: _) => su_id u
    | _ => ""
    end.
Proof.
  unfold latestUpdateId, JS.or_else.
  by destruct (decide _) as [->|].
Qed.

(** C5.  The fingerprint is the status, the separator [":"] and the id of
    the first update (the empty string when there is none).  For two
    events with the same latest update id the fingerprints agree exactly
    when the statuses do; for two events with the same status they agree
    exactly when the latest update ids do. *)
Theorem getFingerprint_determinism (e1 e2 : StatusEvent) :
  getFingerprint e1 =
    status e1 +:+ ":" +:+
    match incident_updates e1 with
    | Some (u :: _) => su_id u
    | _ => ""
    end
  ∧ (latestUpdateId e1 = latestUpdateId e2 →
     status e1 ≠ status e2 → getFingerprint e1 ≠ getFingerprint e2)
  ∧ (status e1 = status e2 →
     latestUpdateId e1 ≠ latestUpdateId e2 →
     getFingerprint e1 ≠ getFingerprint e2)
  ∧ (status e1 = status e2 → latestUpdateId e1 = latestUpdateId e2 →
     getFingerprint e1 = getFingerprint e2).
Proof.
  unfold getFingerprint. split_and!.
  - by rewrite latestUpdateId_first.
  - intros Hid Hst Heq. apply Hst. rewrite Hid in Heq.
    rewrite <-!str_app_assoc in Heq.
    apply str_app_inv_tail in Heq. by apply str_app_inv_tail in Heq.
  - intros Hst Hid Heq. apply Hid. rewrite Hst in Heq.
    apply (inj (String.app _)) in Heq. by apply (inj (String.app _)) in Heq.
  - by intros -> ->.
Qed.

Lemma getFingerprint_determinism_witness :
  getFingerprint (Sample.event "a" "T" "investigating" "minor" ["1"] [])
  ≠ getFingerprint (Sample.event "a" "T" "resolved" "minor" ["1"] [])
  ∧ getFingerprint (Sample.event "a" "T" "resolved" "minor" ["1"] [])
    ≠ getFingerprint (Sample.event "a" "T" "resolved" "minor" ["2"; "1"] [])
  ∧ getFingerprint (Sample.event "a" "T" "resolved" "minor" ["1"] [])
    = getFingerprint (Sample.event "a" "U" "resolved" "major" ["1"; "0"] ["x"]).
Proof.
  split_and!.
  - apply (proj1 (proj2 (getFingerprint_determinism
             (Sample.event "a" "T" "investigating" "minor" ["1"] [])
             (Sample.event "a" "T" "resolved" "minor" ["1"] []))));
      [reflexivity | discriminate].
  - apply (proj1 (proj2 (proj2 (getFingerprint_determinism
             (Sample.event "a" "T" "resolved" "minor" ["1"] [])
             (Sample.event "a" "T" "resolved" "minor" ["2"; "1"] [])))));
      [reflexivity | discriminate].
  - apply (proj2 (proj2 (proj2 (getFingerprint_determinism
             (Sample.event "a" "T" "resolved" "minor" ["1"] [])
             (Sample.event "a" "U" "resolved" "major" ["1"; "0"] ["x"])))));
      reflexivity.
Defined.

End fingerprint.

(** ** The subscription matcher *)

Section matcher.
Import Subscriptions Spec.

Lemma indexOf_IMPACT_LEVELS (l : MinImpact) :
  JS.indexOf IMPACT_LEVELS (MinImpact_str l) = Z.of_nat (impactRank l).
Proof. by destruct l. Qed.

Lemma indexOf_from_not_elem (xs : list string) (x : string) (i : Z) :
  x ∉ xs → JS.indexOf_from i xs x = (-1)%Z.
Proof.
  revert i. induction xs as [|y ys IH]; intros i Hx; simpl; [done|].
  destruct (decide (y = x)) as [->|Hne].
  - exfalso. apply Hx. left.
  - apply IH. intros Hin. apply Hx. by right.
Qed.



(** The four steps of the matcher, each read off its [if]. *)
Lemma eventMatchesSubscription_true (event : ParsedEvent)
    (subscription : UserSubscription) :
  eventMatchesSubscription event subscription = true ↔
    ¬ (eventTypes subscription = "incidents" ∧ eventType event = maintenance)
    ∧ ¬ (eventTypes subscription = "maintenance" ∧ eventType event = incident)
    ∧ ¬ (eventType event = incident ∧ minImpact subscription ≠ MI_none
         ∧ (JS.indexOf IMPACT_LEVELS (impact (data event))
            < JS.indexOf IMPACT_LEVELS (MinImpact_str (minImpact subscription)))%Z)
    ∧ (services subscription = []
       ∨ servicesMatched event (services subscription) = true).
Proof.
  unfold eventMatchesSubscription. cbv zeta.
  rewrite <-Z.ltb_lt.
  replace (0 <? length (services subscription))%nat
    with (negb (bool_decide (services subscription = [])))
    by (by destruct (services subscription)).
  generalize (servicesMatched event (services subscription)).
  generalize (JS.indexOf IMPACT_LEVELS (impact (data event))
              <? JS.indexOf IMPACT_LEVELS (MinImpact_str (minImpact subscription)))%Z.
  intros lt m.
  repeat case_bool_decide; destruct lt, m; simpl; intuition congruence.
Qed.






(** C10.  An incident whose impact string is none of the four known
    levels is below every threshold other than [none]: the matcher
    answers [false]. *)
Theorem eventMatchesSubscription_unknown_impact (event : ParsedEvent)
    (subscription : UserSubscription) :
  eventType event = incident →
  impact (data event) ∉ IMPACT_LEVELS →
  minImpact subscription ≠ MI_none →
  eventMatchesSubscription event subscription = false.
Proof.
  intros Hinc Hunk Hmi. apply not_true_is_false.
  rewrite eventMatchesSubscription_true.
  intros (_ & _ & Himp & _). apply Himp. split_and!; [done..|].
  unfold JS.indexOf at 1. rewrite (indexOf_from_not_elem _ _ _ Hunk).
  rewrite indexOf_IMPACT_LEVELS. lia.
Qed.




Lemma eventMatchesSubscription_unknown_impact_witness :
  eventMatchesSubscription
    (EpicStatus.parseEvent
       (Sample.event "a" "Fortnite Login Issues" "investigating" "severe" ["1"] [])
       incident)
    (Sample.sub [] MI_minor "all") = false.
Proof.
  apply eventMatchesSubscription_unknown_impact.
  - reflexivity.
  - simpl. unfold IMPACT_LEVELS. intros H.
    repeat (apply elem_of_cons in H as [H|H]; [discriminate|]).
    by apply not_elem_of_nil in H.
  - discriminate.
Defined.



End matcher.

(** ** Fetching the feed *)

Section fetching.
Import Feed.

Lemma fetchFromUrl_Ok (fetch : Network) (url key : string) (ty : EventType) :
  ∃ events, fetchFromUrl fetch url key ty = Ok events.
Proof.
  unfold fetchFromUrl, try_catch.
  destruct (fetchFromUrl_try fetch url key ty) as [events|err]; eauto.
Qed.

Lemma fetchAllEvents_Ok (fetch : Network) :
  ∃ incidents active upcoming,
    fetchIncidents fetch = Ok incidents
    ∧ fetchActiveMaintenances fetch = Ok active
    ∧ fetchUpcomingMaintenances fetch = Ok upcoming
    ∧ fetchAllEvents fetch true = Ok (incidents ++ active ++ upcoming)
    ∧ fetchAllEvents fetch false = Ok (incidents ++ active).
Proof.
  unfold fetchAllEvents, fetchIncidents, fetchActiveMaintenances,
    fetchUpcomingMaintenances.
  destruct (fetchFromUrl_Ok fetch INCIDENTS_URL "incidents" incident) as [i ->].
  destruct (fetchFromUrl_Ok fetch MAINTENANCE_ACTIVE_URL
              "scheduled_maintenances" maintenance) as [a ->].
  destruct (fetchFromUrl_Ok fetch MAINTENANCE_UPCOMING_URL
              "scheduled_maintenances" maintenance) as [u ->].
  exists i, a, u. split_and!; try done; simpl; by rewrite app_nil_r.
Qed.

Lemma pollAndNotify_Ok (env : Worker.Env) :
  ∃ events,
    fetchAllEvents (Worker.fetch env) true = Ok events
    ∧ Worker.pollAndNotify env =
        Ok (Worker.pollAndNotify_from env
              (Worker.loadState (Worker.STATE env) (Worker.now_load env))
              events (Worker.getAllSubscriberIds env)).
Proof.
  destruct (fetchAllEvents_Ok (Worker.fetch env)) as (i & a & u & _ & _ & _ & H & _).
  exists (i ++ a ++ u). split; [done|].
  unfold Worker.pollAndNotify. by rewrite H.
Qed.

(** C9.  A sub-fetch never rejects.  A response that is not OK, a
    rejected [fetch], a body that cannot be read, and more generally any
    error raised inside the [try] block, all give the empty list; the
    snapshot of the cycle is then the concatenation of the three
    sub-fetches, and the cycle itself does not reject. *)
Theorem fetchFromUrl_failure_is_empty (fetch : Network) (url key : string)
    (ty : EventType) :
  (∃ events, fetchFromUrl fetch url key ty = Ok events)
  ∧ (∀ r, fetch url = Ok r → ok r = false → fetchFromUrl fetch url key ty = Ok [])
  ∧ (∀ err, fetch url = Throw err →
       fetchFromUrl_try fetch url key ty = Throw err
       ∧ fetchFromUrl fetch url key ty = Ok [])
  ∧ (∀ r err, fetch url = Ok r → ok r = true → json r = Throw err →
       fetchFromUrl_try fetch url key ty = Throw err
       ∧ fetchFromUrl fetch url key ty = Ok [])
  ∧ (∀ err, fetchFromUrl_try fetch url key ty = Throw err →
       fetchFromUrl fetch url key ty = Ok [])
  ∧ (∃ incidents active upcoming,
       fetchIncidents fetch = Ok incidents
       ∧ fetchActiveMaintenances fetch = Ok active
       ∧ fetchUpcomingMaintenances fetch = Ok upcoming
       ∧ fetchAllEvents fetch true = Ok (incidents ++ active ++ upcoming))
  ∧ (∀ env, Worker.fetch env = fetch → ∃ r, Worker.pollAndNotify env = Ok r).
Proof.
  split_and!.
  - apply fetchFromUrl_Ok.
  - intros r Hr Hok. unfold fetchFromUrl, fetchFromUrl_try.
    rewrite Hr. simpl. by rewrite Hok.
  - intros err Hr. unfold fetchFromUrl, fetchFromUrl_try. by rewrite Hr.
  - intros r err Hr Hok Hjson. unfold fetchFromUrl, fetchFromUrl_try.
    rewrite Hr. simpl. rewrite Hok. simpl. by rewrite Hjson.
  - intros err H. unfold fetchFromUrl. by rewrite H.
  - destruct (fetchAllEvents_Ok fetch) as (i & a & u & ? & ? & ? & ? & _).
    by exists i, a, u.
  - intros env <-. destruct (pollAndNotify_Ok env) as (events & _ & ->). eauto.
Qed.

Lemma fetchFromUrl_failure_is_empty_witness :
  let maint := Sample.event "m" "Store maintenance" "scheduled" "none" [] [] in
  let net := Sample.feed_partial [maint] in
  fetchIncidents net = Ok []
  ∧ fetchUpcomingMaintenances net = Ok []
  ∧ fetchAllEvents net true = Ok [EpicStatus.parseEvent maint maintenance]
  ∧ ∃ r, Worker.pollAndNotify (Sample.env None [] [] net) = Ok r.
Proof.
  intros maint net. split_and!.
  - apply (proj1 (proj2 (proj2 (fetchFromUrl_failure_is_empty
             net INCIDENTS_URL "incidents" incident))) "network error").
    reflexivity.
  - apply (proj1 (proj2 (fetchFromUrl_failure_is_empty
             net MAINTENANCE_UPCOMING_URL "scheduled_maintenances" maintenance))
             {| ok := false; resp_status := 503; json := Throw "no body" |});
      reflexivity.
  - reflexivity.
  - destruct (fetchFromUrl_failure_is_empty net INCIDENTS_URL "incidents" incident)
      as (_ & _ & _ & _ & _ & _ & Hcycle).
    apply (Hcycle (Sample.env None [] [] net)). reflexivity.
Defined.

End fetching.

(** ** Saving the state: retention *)

Section retention.
Import Worker Spec.

Lemma slice_last_length {A} (n : nat) (xs : list A) :
  length (JS.slice_last n xs) ≤ n.
Proof. unfold JS.slice_last. rewrite length_drop. lia. Qed.

Lemma slice_last_all {A} (n : nat) (xs : list A) :
  length xs ≤ n → JS.slice_last n xs = xs.
Proof.
  intros H. unfold JS.slice_last.
  by replace (length xs - n) with 0 by lia.
Qed.

Lemma slice_last_elem_of {A} (n : nat) (xs : list A) (x : A) :
  x ∈ JS.slice_last n xs → x ∈ xs.
Proof. unfold JS.slice_last. apply subseteq_drop. Qed.

Lemma saveState_seenIds (state : BotState) (events : list ParsedEvent)
    (now : string) :
  seenIds (saveState state events now) =
    filter (λ i, i ∈ eventIds events) (seenIds state)
    ++ JS.slice_last 50 (filter (λ i, i ∉ eventIds events) (seenIds state)).
Proof.
  unfold saveState, eventIds. simpl. f_equal; [|f_equal];
    apply list_filter_iff; intros i; by rewrite elem_of_list_to_set.
Qed.

(** What [saveState] keeps in [seenIds]. *)
Lemma saveState_retained (state : BotState) (events : list ParsedEvent)
    (now : string) (i : string) :
  i ∈ seenIds (saveState state events now) ↔
    (i ∈ seenIds state ∧ i ∈ eventIds events)
    ∨ i ∈ JS.slice_last 50 (filter (λ i, i ∉ eventIds events) (seenIds state)).
Proof.
  rewrite saveState_seenIds, elem_of_app, list_elem_of_filter. tauto.
Qed.

Lemma saveState_seen_before (state : BotState) (events : list ParsedEvent)
    (now : string) (i : string) :
  i ∈ seenIds (saveState state events now) → i ∈ seenIds state.
Proof.
  rewrite saveState_retained. intros [[? _] | H]; [done|].
  apply slice_last_elem_of, list_elem_of_filter in H. tauto.
Qed.

Lemma saveState_fingerprints (state : BotState) (events : list ParsedEvent)
    (now : string) (i fp : string) :
  fingerprints (saveState state events now) !! i = Some fp ↔
    fingerprints state !! i = Some fp
    ∧ i ∈ seenIds (saveState state events now).
Proof.
  unfold saveState. simpl. by rewrite map_lookup_filter_Some.
Qed.

Lemma saveState_within_seen (state : BotState) (events : list ParsedEvent)
    (now : string) :
  fingerprints_within_seen (saveState state events now).
Proof. intros i [fp H]. by apply saveState_fingerprints in H as [_ ?]. Qed.

Lemma saveState_departed_bound (state : BotState) (events : list ParsedEvent)
    (now : string) :
  length (filter (λ i, i ∉ eventIds events)
            (seenIds (saveState state events now))) ≤ 50.
Proof.
  rewrite saveState_seenIds, filter_app, length_app.
  assert (filter (λ i, i ∉ eventIds events)
            (filter (λ i, i ∈ eventIds events) (seenIds state)) = []) as ->.
  { apply elem_of_nil_inv. intros i Hi.
    apply list_elem_of_filter in Hi as [Hn Hi].
    apply list_elem_of_filter in Hi as [Hy _]. done. }
  simpl. etrans; [apply length_filter|]. apply slice_last_length.
Qed.

Lemma pollAndNotify_from_saved (env : Env) (state : BotState)
    (events : list ParsedEvent) (subscriberIds : list Z) :
  ∃ state',
    (pollAndNotify_from env state events subscriberIds).1
    = saveState state' events (now_save env).
Proof.
  unfold pollAndNotify_from. case_bool_decide; [by eexists|].
  destruct (foldl _ _ _) as [state' sent]. by eexists.
Qed.

(** C4.  After a commit at most fifty entries of [seenIds] are ids that
    do not belong to an event of the snapshot just committed; this holds
    for [saveState] from any state and so for both branches of the
    cycle. *)
Theorem seenIds_departed_at_most_50 (env : Env) (state : BotState)
    (events : list ParsedEvent) (subscriberIds : list Z) (now : string) :
  length (filter (λ i, i ∉ eventIds events)
            (seenIds (saveState state events now))) ≤ 50
  ∧ length (filter (λ i, i ∉ eventIds events)
              (seenIds (pollAndNotify_from env state events subscriberIds).1)) ≤ 50.
Proof.
  split; [apply saveState_departed_bound|].
  destruct (pollAndNotify_from_saved env state events subscriberIds) as [st' ->].
  apply saveState_departed_bound.
Qed.

Lemma stored_within_seen (kv : option BotState) (now : string) :
  stored kv → fingerprints_within_seen (loadState kv now).
Proof.
  intros Hkv. destruct Hkv as [|env state sent _ Hpoll]; simpl.
  - intros i [fp H]. simpl in H. by rewrite lookup_empty in H.
  - destruct (pollAndNotify_Ok env) as (events & _ & Heq).
    rewrite Heq in Hpoll. injection Hpoll as Hpoll.
    destruct (pollAndNotify_from_saved env
                (loadState (STATE env) (now_load env)) events
                (getAllSubscriberIds env)) as [st' Hst'].
    rewrite Hpoll in Hst'. simpl in Hst'. subst state.
    apply saveState_within_seen.
Qed.

(** C8.  The empty default state, every state that [saveState] writes
    (from either branch of the cycle), and every state loaded from a
    store that only the worker has written, keep the domain of
    [fingerprints] within [seenIds]. *)
Theorem fingerprints_domain_within_seenIds :
  (∀ now, fingerprints_within_seen (loadState None now))
  ∧ (∀ state events now, fingerprints_within_seen (saveState state events now))
  ∧ (∀ env state events subscriberIds,
       fingerprints_within_seen
         (pollAndNotify_from env state events subscriberIds).1)
  ∧ (∀ env state sent,
       pollAndNotify env = Ok (state, sent) → fingerprints_within_seen state)
  ∧ (∀ kv now, stored kv → fingerprints_within_seen (loadState kv now)).
Proof.
  split_and!.
  - intros now. by apply stored_within_seen, stored_initial.
  - apply saveState_within_seen.
  - intros env state events subscriberIds.
    destruct (pollAndNotify_from_saved env state events subscriberIds) as [st' ->].
    apply saveState_within_seen.
  - intros env state sent Hpoll.
    destruct (pollAndNotify_Ok env) as (events & _ & Heq).
    rewrite Heq in Hpoll. injection Hpoll as Hpoll.
    destruct (pollAndNotify_from_saved env
                (loadState (STATE env) (now_load env)) events
                (getAllSubscriberIds env)) as [st' Hst'].
    rewrite Hpoll in Hst'. simpl in Hst'. subst state.
    apply saveState_within_seen.
  - apply stored_within_seen.
Qed.

End retention.

(** ** The loop over the events: classification and state updates *)

Section classification.
Import Worker Spec.

Lemma classify_NEW (state : BotState) (event : ParsedEvent) :
  classify state event = NEW ↔ id (data event) ∉ seenIds state.
Proof.
  unfold classify, isUpdated, isNew.
  repeat case_bool_decide; simpl; intuition congruence.
Qed.

Lemma classify_UPDATED (state : BotState) (event : ParsedEvent) :
  classify state event = UPDATED ↔
    id (data event) ∈ seenIds state
    ∧ fingerprints state !! id (data event) ≠ Some (fingerprint event).
Proof.
  unfold classify, isUpdated, isNew.
  repeat case_bool_decide; simpl; intuition congruence.
Qed.

Lemma classify_UNCHANGED (state : BotState) (event : ParsedEvent) :
  classify state event = UNCHANGED ↔
    id (data event) ∈ seenIds state
    ∧ fingerprints state !! id (data event) = Some (fingerprint event).
Proof.
  unfold classify, isUpdated, isNew.
  repeat case_bool_decide; simpl; intuition congruence.
Qed.

(** The loop body, by classification. *)
Lemma processEvent_classify (env : Env) (subscriberIds : list Z)
    (state : BotState) (sent : list Notification) (event : ParsedEvent) :
  processEvent env subscriberIds (state, sent) event =
    match classify state event with
    | UNCHANGED => (state, sent)
    | NEW =>
        ({| seenIds := seenIds state ++ [id (data event)];
            fingerprints :=
              <[id (data event) := fingerprint event]> (fingerprints state);
            lastChecked := lastChecked state |},
         sent ++ notifySubscribers env subscriberIds event false)
    | UPDATED =>
        ({| seenIds := seenIds state;
            fingerprints :=
              <[id (data event) := fingerprint event]> (fingerprints state);
            lastChecked := lastChecked state |},
         sent ++ notifySubscribers env subscriberIds event true)
    end.
Proof.
  unfold processEvent, classify, isUpdated.
  destruct (isNew state event); simpl; [done|].
  by destruct (bool_decide _).
Qed.

(** After one iteration the event is recorded with its fingerprint, and
    nothing changes for the other ids. *)
Lemma processEvent_step (env : Env) (subscriberIds : list Z)
    (acc : BotState * list Notification) (event : ParsedEvent) :
  let state' := (processEvent env subscriberIds acc event).1 in
  id (data event) ∈ seenIds state'
  ∧ fingerprints state' !! id (data event) = Some (fingerprint event)
  ∧ (∀ i, i ∈ seenIds acc.1 → i ∈ seenIds state')
  ∧ (∀ i, i ≠ id (data event) →
       (i ∈ seenIds state' ↔ i ∈ seenIds acc.1)
       ∧ fingerprints state' !! i = fingerprints acc.1 !! i).
Proof.
  destruct acc as [state sent]. rewrite processEvent_classify.
  destruct (classify state event) eqn:Hc; simpl.
  - split_and!.
    + apply elem_of_app. right. by apply list_elem_of_singleton.
    + by rewrite lookup_insert_eq.
    + intros i Hi. apply elem_of_app. by left.
    + intros i Hi. rewrite elem_of_app, list_elem_of_singleton.
      split; [tauto | by rewrite lookup_insert_ne].
  - apply classify_UPDATED in Hc as [Hin _]. split_and!.
    + done.
    + by rewrite lookup_insert_eq.
    + done.
    + intros i Hi. split; [done | by rewrite lookup_insert_ne].
  - apply classify_UNCHANGED in Hc as [Hin Hfp]. by split_and!.
Qed.


Lemma loop_other (env : Env) (subscriberIds : list Z)
    (events : list ParsedEvent) (acc : BotState * list Notification) (i : string) :
  i ∉ eventIds events →
  let state' := (foldl (processEvent env subscriberIds) acc events).1 in
  (i ∈ seenIds state' ↔ i ∈ seenIds acc.1)
  ∧ fingerprints state' !! i = fingerprints acc.1 !! i.
Proof.
  revert acc. induction events as [|ev events IH]; intros acc Hi; simpl; [done|].
  unfold eventIds in Hi. simpl in Hi. apply not_elem_of_cons in Hi as [Hne Hi].
  destruct (IH (processEvent env subscriberIds acc ev) Hi) as [Hseen Hfp].
  destruct (processEvent_step env subscriberIds acc ev) as (_ & _ & _ & Hother).
  destruct (Hother i Hne) as [Hseen1 Hfp1].
  split; [by rewrite Hseen, Hseen1 | by rewrite Hfp, Hfp1].
Qed.


Lemma classify_ext (st1 st2 : BotState) (event : ParsedEvent) :
  (id (data event) ∈ seenIds st1 ↔ id (data event) ∈ seenIds st2) →
  fingerprints st1 !! id (data event) = fingerprints st2 !! id (data event) →
  classify st1 event = classify st2 event.
Proof.
  intros Hseen Hfp. unfold classify, isUpdated, isNew. rewrite Hfp.
  repeat case_bool_decide; simpl; tauto.
Qed.

End classification.

(** ** The cycle *)

Section cycle.
Import EpicStatus Worker Spec.

Lemma getFingerprint_status_inj (d0 d : StatusEvent) :
  latestUpdateId d0 = latestUpdateId d →
  getFingerprint d0 = getFingerprint d → status d0 = status d.
Proof.
  unfold getFingerprint. intros -> H. rewrite <-!str_app_assoc in H.
  apply str_app_inv_tail in H. by apply str_app_inv_tail in H.
Qed.

(** C3.  Every event falls into exactly one class: [NEW] when its id is
    not in [seenIds]; [UPDATED] when it is and the stored fingerprint is
    not the event's; [UNCHANGED] otherwise, in which case the loop leaves
    the state alone and dispatches nothing.  An event whose id does not
    occur earlier in the snapshot is classified in the loop as it is
    against the state the cycle started from.  A seen event whose status
    changed while its latest update id did not is [UPDATED]. *)
Theorem classify_exactly_one (state : BotState) (event : ParsedEvent) :
  (classify state event = NEW ↔ id (data event) ∉ seenIds state)
  ∧ (classify state event = UPDATED ↔
       id (data event) ∈ seenIds state
       ∧ fingerprints state !! id (data event) ≠ Some (fingerprint event))
  ∧ (classify state event = UNCHANGED ↔
       id (data event) ∈ seenIds state
       ∧ fingerprints state !! id (data event) = Some (fingerprint event))
  ∧ (∀ env subscriberIds sent,
       classify state event = UNCHANGED →
       processEvent env subscriberIds (state, sent) event = (state, sent))
  ∧ (∀ env subscriberIds sent,
       classify state event ≠ UNCHANGED →
       (processEvent env subscriberIds (state, sent) event).2 =
         sent ++ notifySubscribers env subscriberIds event
                   (bool_decide (classify state event = UPDATED)))
  ∧ (∀ env subscriberIds sent earlier,
       id (data event) ∉ eventIds earlier →
       classify (foldl (processEvent env subscriberIds) (state, sent) earlier).1
         event = classify state event)
  ∧ (∀ previous,
       id (data event) ∈ seenIds state →
       fingerprints state !! id (data event) = Some (getFingerprint previous) →
       fingerprint event = getFingerprint (data event) →
       latestUpdateId previous = latestUpdateId (data event) →
       status previous ≠ status (data event) →
       classify state event = UPDATED).
Proof.
  split_and!.
  - apply classify_NEW.
  - apply classify_UPDATED.
  - apply classify_UNCHANGED.
  - intros env subscriberIds sent Hc. by rewrite processEvent_classify, Hc.
  - intros env subscriberIds sent Hc. rewrite processEvent_classify.
    by destruct (classify state event).
  - intros env subscriberIds sent earlier Hnot.
    destruct (loop_other env subscriberIds earlier (state, sent) _ Hnot)
      as [Hseen Hfp].
    by apply classify_ext.
  - intros previous Hin Hfp Hev Hupd Hst. apply classify_UPDATED.
    split; [done|]. rewrite Hfp, Hev. intros [= Heq].
    by apply Hst, getFingerprint_status_inj.
Qed.

(** Scenario D: ["a"] was seen as ["investigating:1"] and comes back
    resolved with the same update. *)
Lemma classify_exactly_one_witness :
  let state := Sample.state ["a"] [("a", "investigating:1")] in
  let before := Sample.event "a" "T" "investigating" "minor" ["1"] [] in
  let event := parseEvent (Sample.event "a" "T" "resolved" "minor" ["1"] []) incident in
  classify state event = UPDATED
  ∧ classify
      (foldl (processEvent (Sample.env None [] [] (Sample.feed [])) [])
         (state, []) [parseEvent (Sample.incident_of "b") incident]).1
      event = UPDATED.
Proof.
  intros state before event.
  destruct (classify_exactly_one state event)
    as (_ & _ & _ & _ & _ & Hloop & Hstatus).
  assert (classify state event = UPDATED) as Hupd.
  { apply (Hstatus before).
    - apply list_elem_of_singleton. reflexivity.
    - reflexivity.
    - reflexivity.
    - reflexivity.
    - discriminate. }
  split; [done|]. rewrite Hloop; [done|].
  intros H. apply list_elem_of_singleton in H. discriminate.
Defined.




(** C2 on a run of three cycles from the empty store.  Fifty incidents
    are seen and leave the feed when incident ["a"] appears; then ["a"]
    leaves as well.  The commit of the third cycle keeps the fifty older
    ids and forgets ["a"], the id that left the feed last: were ["a"] to
    come back, it would be classified [NEW] again. *)
Theorem saveState_forgets_latest_departure :
  let kv1 := Sample.run_cycle None Sample.hids in
  let kv2 := Sample.run_cycle kv1 ["a"] in
  let kv3 := Sample.run_cycle kv2 [] in
  seenIds <$> kv1 = Some Sample.hids
  ∧ seenIds <$> kv2 = Some ("a" :: Sample.hids)
  ∧ seenIds <$> kv3 = Some Sample.hids
  ∧ ("a" ∉ Sample.hids)
  ∧ kv3 ≫= (λ st, fingerprints st !! "a") = None
  ∧ kv3 ≫= (λ st, fingerprints st !! "h01") = Some "investigating:1"
  ∧ classify_in kv3 (parseEvent (Sample.incident_of "a") incident) = Some NEW.
Proof.
  intros kv1 kv2 kv3.
  assert ("a" ∉ Sample.hids) as Ha.
  { intros H. apply list_elem_of_fmap in H as (n & Hn & _). discriminate. }
  unfold classify_in. split_and!; try done; vm_compute; reflexivity.
Qed.

Lemma fingerprints_domain_within_seenIds_witness :
  let ev := parseEvent (Sample.incident_of "a") incident in
  let env :=
    Sample.env None [1%Z] [(1%Z, Sample.sub [] MI_none "all")]
      (Sample.feed [Sample.incident_of "a"]) in
  let r := pollAndNotify_from env (loadState None "t0") [ev] [1%Z] in
  stored (Some r.1) ∧ fingerprints_within_seen (loadState (Some r.1) "t2").
Proof.
  intros ev env r.
  assert (pollAndNotify env = Ok (r.1, r.2)) as Hpoll by reflexivity.
  assert (stored (Some r.1)) as Hstored
    by (by apply (stored_cycle env r.1 r.2); [apply stored_initial|]).
  split; [done|].
  destruct fingerprints_domain_within_seenIds as (_ & _ & _ & _ & Hload).
  by apply Hload.
Defined.

End cycle.

(** * Further properties of the polling cycle *)

Section cycle_more.
Import EpicStatus Worker Spec Inv.

Lemma filter_all {A} (P : A → Prop) `{∀ x, Decision (P x)} (l : list A) :
  (∀ x, x ∈ l → P x) → filter P l = l.
Proof.
  induction l as [|x l IH]; intros Hall; [done|].
  rewrite filter_cons_True by (apply Hall; left).
  f_equal. apply IH. intros y Hy. apply Hall. by right.
Qed.

Lemma filter_none {A} (P : A → Prop) `{∀ x, Decision (P x)} (l : list A) :
  (∀ x, x ∈ l → ¬ P x) → filter P l = [].
Proof.
  intros Hnone. apply elem_of_nil_inv. intros x Hx.
  apply list_elem_of_filter in Hx as [HP Hx]. by apply (Hnone x).
Qed.


Lemma loop_state_independent (env1 env2 : Env) (ids1 ids2 : list Z)
    (events : list ParsedEvent) (state : BotState) (sent1 sent2 : list Notification) :
  (foldl (processEvent env1 ids1) (state, sent1) events).1
  = (foldl (processEvent env2 ids2) (state, sent2) events).1.
Proof.
  revert state sent1 sent2.
  induction events as [|ev events IH]; intros state sent1 sent2; cbn [foldl];
    [done|].
  rewrite !processEvent_classify.
  destruct (classify state ev); apply IH.
Qed.

Lemma saveState_idempotent_fields (state : BotState) (events : list ParsedEvent)
    (t1 t2 : string) :
  seenIds (saveState (saveState state events t1) events t2)
  = seenIds (saveState state events t1)
  ∧ fingerprints (saveState (saveState state events t1) events t2)
    = fingerprints (saveState state events t1).
Proof.
  assert (seenIds (saveState (saveState state events t1) events t2)
          = seenIds (saveState state events t1)) as Hseen.
  { rewrite (saveState_seenIds (saveState _ _ _)), (saveState_seenIds state).
    set (rel := filter (λ i, i ∈ eventIds events) (seenIds state)).
    set (hist := JS.slice_last 50 (filter (λ i, i ∉ eventIds events) (seenIds state))).
    rewrite !filter_app.
    assert (filter (λ i, i ∈ eventIds events) rel = rel) as ->.
    { apply filter_all. intros i Hi. by apply list_elem_of_filter in Hi as [? _]. }
    assert (filter (λ i, i ∈ eventIds events) hist = []) as ->.
    { apply filter_none. intros i Hi Hin.
      apply slice_last_elem_of, list_elem_of_filter in Hi as [Hout _]. done. }
    assert (filter (λ i, i ∉ eventIds events) rel = []) as ->.
    { apply filter_none. intros i Hi Hout.
      apply list_elem_of_filter in Hi as [Hin _]. done. }
    assert (filter (λ i, i ∉ eventIds events) hist = hist) as ->.
    { apply filter_all. intros i Hi.
      apply slice_last_elem_of, list_elem_of_filter in Hi as [Hout _]. done. }
    rewrite app_nil_r. simpl.
    by rewrite (slice_last_all 50 hist) by apply slice_last_length. }
  split; [done|]. apply map_eq. intros i. apply option_eq. intros fp.
  rewrite saveState_fingerprints, Hseen.
  split; [tauto|]. intros H. split; [done|].
  by apply saveState_fingerprints in H as [_ ?].
Qed.

Lemma BotState_eq (a b : BotState) :
  seenIds a = seenIds b → fingerprints a = fingerprints b →
  lastChecked a = lastChecked b → a = b.
Proof. destruct a, b. simpl. by intros -> -> ->. Qed.

(** Saving twice against the same snapshot is the same as saving once:
    what [saveState] keeps, it keeps again. *)
Theorem saveState_idempotent (state : BotState) (events : list ParsedEvent)
    (t1 t2 : string) :
  saveState (saveState state events t1) events t2 = saveState state events t2.
Proof.
  destruct (saveState_idempotent_fields state events t1 t2) as [Hseen Hfp].
  apply BotState_eq; [by rewrite Hseen | by rewrite Hfp | done].
Qed.


Lemma eventIds_elem_of (events : list ParsedEvent) (e : ParsedEvent) :
  e ∈ events → id (data e) ∈ eventIds events.
Proof. intros He. by apply (list_elem_of_fmap_2 (λ e, id (data e))). Qed.



Lemma elem_of_notifySubscribers (env : Env) (ids : list Z) (e : ParsedEvent)
    (upd : bool) (n : Notification) :
  n ∈ notifySubscribers env ids e upd ↔
    n_chatId n ∈ ids
    ∧ ∃ s, getSubscription env (n_chatId n) = Some s
           ∧ Subscriptions.eventMatchesSubscription e s = true
           ∧ n = {| n_chatId := n_chatId n; n_event := e; n_isUpdate := upd;
                    n_success := send env (n_chatId n) e upd |}.
Proof.
  unfold notifySubscribers. rewrite list_elem_of_In, in_flat_map. split.
  - intros (c & Hc & Hn). apply list_elem_of_In in Hc.
    destruct (getSubscription env c) as [s|] eqn:Hs; [|done].
    destruct (Subscriptions.eventMatchesSubscription e s) eqn:Hm; [|done].
    destruct Hn as [<-|[]]. simpl. split; [done|]. by exists s.
  - intros (Hc & s & Hs & Hm & Hn). exists (n_chatId n).
    split; [by apply list_elem_of_In|]. rewrite Hs, Hm. left. symmetry. exact Hn.
Qed.

Lemma notifySubscribers_nil (env : Env) (e : ParsedEvent) (upd : bool) :
  notifySubscribers env [] e upd = [].
Proof. done. Qed.

Lemma processEvent_sent (env : Env) (ids : list Z) (state : BotState)
    (sent : list Notification) (ev : ParsedEvent) :
  (processEvent env ids (state, sent) ev).2 = sent ++ dispatched env ids state ev.
Proof.
  rewrite processEvent_classify. unfold dispatched.
  destruct (classify state ev); simpl; [done.. | by rewrite app_nil_r].
Qed.

Lemma elem_of_dispatched (env : Env) (ids : list Z) (state : BotState)
    (ev : ParsedEvent) (n : Notification) :
  n ∈ dispatched env ids state ev ↔
    classify state ev ≠ UNCHANGED
    ∧ n ∈ notifySubscribers env ids ev (bool_decide (classify state ev = UPDATED)).
Proof.
  unfold dispatched. destruct (classify state ev); simpl.
  - split; [by intros ? | by intros [_ ?]].
  - split; [by intros ? | by intros [_ ?]].
  - split; [by intros ?%elem_of_nil | by intros [? _]].
Qed.

Lemma loop_sent_sound (env : Env) (ids : list Z) (events : list ParsedEvent)
    (acc : BotState * list Notification) (n : Notification) :
  n ∈ (foldl (processEvent env ids) acc events).2 →
  n ∈ acc.2 ∨ ∃ e upd, e ∈ events ∧ n ∈ notifySubscribers env ids e upd.
Proof.
  revert acc. induction events as [|ev events IH]; intros [state sent] Hn;
    cbn [foldl] in Hn; [by left|].
  apply IH in Hn as [Hn | (e & upd & He & Hn)].
  - rewrite processEvent_sent in Hn. apply elem_of_app in Hn as [Hn|Hn]; [by left|].
    apply elem_of_dispatched in Hn as [_ Hn]. right. eexists ev, _. split; [by left | done].
  - right. exists e, upd. split; [by right | done].
Qed.

Lemma flat_map_ext_elem {A B} (f g : A → list B) (l : list A) :
  (∀ x, x ∈ l → f x = g x) → flat_map f l = flat_map g l.
Proof.
  induction l as [|x l IH]; intros Hext; simpl; [done|].
  rewrite (Hext x) by left. f_equal. apply IH. intros y Hy. apply Hext. by right.
Qed.

Lemma loop_sent_distinct (env : Env) (ids : list Z) (events : list ParsedEvent)
    (state : BotState) (sent : list Notification) :
  NoDup (eventIds events) →
  (foldl (processEvent env ids) (state, sent) events).2
  = sent ++ flat_map (dispatched env ids state) events.
Proof.
  revert state sent. induction events as [|ev events IH]; intros state sent Hnd;
    cbn [foldl].
  - simpl. by rewrite app_nil_r.
  - unfold eventIds in Hnd. simpl in Hnd. apply NoDup_cons in Hnd as [Hev Hnd].
    pose proof (processEvent_sent env ids state sent ev) as Hsent.
    pose proof (processEvent_step env ids (state, sent) ev) as (_ & _ & _ & Hother).
    destruct (processEvent env ids (state, sent) ev) as [state1 sent1].
    simpl in Hsent, Hother. rewrite (IH state1 sent1 Hnd), Hsent.
    simpl. rewrite <-app_assoc. do 2 f_equal.
    apply flat_map_ext_elem. intros e He. unfold dispatched.
    assert (id (data e) ≠ id (data ev)) as Hne.
    { intros Heq. apply Hev. rewrite <-Heq. by apply eventIds_elem_of. }
    destruct (Hother _ Hne) as [Hseen Hfp].
    by rewrite (classify_ext state1 state e Hseen Hfp).
Qed.

(** Every delivery attempt of a cycle is for an event of the snapshot and
    goes to a listed subscriber whose stored subscription matches the
    event; its outcome is what the messaging channel answered. *)
Theorem notifications_only_to_matching (env : Env) (state : BotState)
    (events : list ParsedEvent) (subscriberIds : list Z) (n : Notification) :
  n ∈ (pollAndNotify_from env state events subscriberIds).2 →
  n_event n ∈ events
  ∧ n_chatId n ∈ subscriberIds
  ∧ ∃ subscription,
      getSubscription env (n_chatId n) = Some subscription
      ∧ Subscriptions.eventMatchesSubscription (n_event n) subscription = true
      ∧ n_success n = send env (n_chatId n) (n_event n) (n_isUpdate n).
Proof.
  unfold pollAndNotify_from. case_bool_decide; [by intros ?%elem_of_nil|].
  pose proof (loop_sent_sound env subscriberIds events (state, []) n) as Hsound.
  destruct (foldl _ _ _) as [state' sent]. simpl. intros Hn.
  destruct (Hsound Hn) as [Hnil | (e & upd & He & Hin)]; [by apply elem_of_nil in Hnil|].
  apply elem_of_notifySubscribers in Hin as (Hc & s & Hs & Hm & ->). simpl.
  split_and!; [done..|]. by exists s.
Qed.

Lemma pollAndNotify_from_sent_distinct (env : Env) (state : BotState)
    (events : list ParsedEvent) (ids : list Z) :
  NoDup (eventIds events) →
  (pollAndNotify_from env state events ids).2
  = flat_map (dispatched env ids state) events.
Proof.
  intros Hnd. unfold pollAndNotify_from. case_bool_decide as Hlen.
  - destruct ids; [|done]. simpl. symmetry.
    induction events as [|ev events IH]; simpl; [done|].
    unfold eventIds in Hnd. simpl in Hnd. apply NoDup_cons in Hnd as [_ Hnd].
    rewrite (IH Hnd), app_nil_r. unfold dispatched.
    by destruct (classify state ev).
  - pose proof (loop_sent_distinct env ids events state [] Hnd) as H.
    by destruct (foldl _ _ _).
Qed.

Lemma elem_of_sent_distinct (env : Env) (state : BotState)
    (events : list ParsedEvent) (ids : list Z) (e : ParsedEvent) (chat : Z)
    (subscription : UserSubscription) :
  NoDup (eventIds events) →
  e ∈ events → chat ∈ ids → getSubscription env chat = Some subscription →
  (classify state e ≠ UNCHANGED
   ∧ Subscriptions.eventMatchesSubscription e subscription = true ↔
   {| n_chatId := chat; n_event := e;
      n_isUpdate := bool_decide (classify state e = UPDATED);
      n_success := send env chat e (bool_decide (classify state e = UPDATED)) |}
   ∈ (pollAndNotify_from env state events ids).2).
Proof.
  intros Hnd He Hchat Hsub. rewrite pollAndNotify_from_sent_distinct by done.
  rewrite list_elem_of_In, in_flat_map. split.
  - intros [Hc Hm]. exists e. split; [by apply list_elem_of_In|].
    apply list_elem_of_In, elem_of_dispatched. split; [done|].
    apply elem_of_notifySubscribers. simpl. split; [done|]. by exists subscription.
  - intros (e' & He' & Hin). apply list_elem_of_In, elem_of_dispatched in Hin as [Hc Hin].
    apply elem_of_notifySubscribers in Hin as (_ & s & Hs & Hm & Heq). simpl in *.
    injection Heq as -> _. rewrite Hsub in Hs. injection Hs as <-. done.
Qed.

(** When the ids of the snapshot are pairwise distinct, the deliveries of a
    cycle are exactly, event by event in feed order, those owed for the
    class the event has against the state the cycle started from: none for
    [UNCHANGED], one per matching subscriber otherwise, flagged as an update
    exactly for [UPDATED]. *)
Theorem notifications_exact (env : Env) (state : BotState)
    (events : list ParsedEvent) (subscriberIds : list Z) :
  NoDup (eventIds events) →
  (pollAndNotify_from env state events subscriberIds).2
  = flat_map (dispatched env subscriberIds state) events
  ∧ ∀ e chat subscription,
      e ∈ events → chat ∈ subscriberIds →
      getSubscription env chat = Some subscription →
      (classify state e ≠ UNCHANGED
       ∧ Subscriptions.eventMatchesSubscription e subscription = true ↔
       {| n_chatId := chat; n_event := e;
          n_isUpdate := bool_decide (classify state e = UPDATED);
          n_success := send env chat e (bool_decide (classify state e = UPDATED)) |}
       ∈ (pollAndNotify_from env state events subscriberIds).2).
Proof.
  intros Hnd. split; [by apply pollAndNotify_from_sent_distinct|].
  intros e chat subscription. by apply elem_of_sent_distinct.
Qed.

(** The state a cycle commits does not depend on who is subscribed, on
    what matched or on whether any delivery succeeded, as long as there is
    at least one subscriber. *)
Theorem state_independent_of_delivery (env1 env2 : Env) (state : BotState)
    (events : list ParsedEvent) (ids1 ids2 : list Z) :
  ids1 ≠ [] → ids2 ≠ [] → now_save env1 = now_save env2 →
  (pollAndNotify_from env1 state events ids1).1
  = (pollAndNotify_from env2 state events ids2).1.
Proof.
  intros H1 H2 Hnow. unfold pollAndNotify_from.
  destruct ids1 as [|c1 ids1]; [done|]. destruct ids2 as [|c2 ids2]; [done|]. simpl.
  pose proof (loop_state_independent env1 env2 (c1 :: ids1) (c2 :: ids2)
                events state [] []) as Heq.
  destruct (foldl (processEvent env1 _) _ _), (foldl (processEvent env2 _) _ _).
  simpl in *. by rewrite Heq, Hnow.
Qed.

Lemma pollAndNotify_from_state (env : Env) (state : BotState)
    (events : list ParsedEvent) (ids : list Z) :
  (pollAndNotify_from env state events ids).1
  = saveState
      (if bool_decide (length ids = 0) then state
       else (foldl (processEvent env ids) (state, []) events).1)
      events (now_save env).
Proof.
  unfold pollAndNotify_from. case_bool_decide; [done|].
  by destruct (foldl _ _ _).
Qed.

Lemma loop_NoDup (env : Env) (ids : list Z) (events : list ParsedEvent)
    (acc : BotState * list Notification) :
  NoDup (seenIds acc.1) →
  NoDup (seenIds (foldl (processEvent env ids) acc events).1).
Proof.
  revert acc. induction events as [|ev events IH]; intros [state sent] Hnd;
    cbn [foldl]; [done|].
  apply IH. rewrite processEvent_classify.
  destruct (classify state ev) eqn:Hc; simpl in *; [|done..].
  apply classify_NEW in Hc. apply NoDup_app. split_and!; [done | | apply NoDup_singleton].
  intros i Hi ->%list_elem_of_singleton. done.
Qed.

Lemma saveState_NoDup (state : BotState) (events : list ParsedEvent) (now : string) :
  NoDup (seenIds state) → NoDup (seenIds (saveState state events now)).
Proof.
  intros Hnd. rewrite saveState_seenIds. apply NoDup_app. split_and!.
  - by apply NoDup_filter.
  - intros i Hi Hh. apply list_elem_of_filter in Hi as [Hin _].
    apply slice_last_elem_of, list_elem_of_filter in Hh as [Hout _]. done.
  - apply (sublist_NoDup _ (filter (λ i, i ∉ eventIds events) (seenIds state))).
    + by apply NoDup_filter.
    + apply sublist_drop.
Qed.

Lemma loop_have_fingerprints (env : Env) (ids : list Z)
    (events : list ParsedEvent) (acc : BotState * list Notification) :
  seen_have_fingerprints acc.1 →
  seen_have_fingerprints (foldl (processEvent env ids) acc events).1.
Proof.
  revert acc. induction events as [|ev events IH]; intros [state sent] Hinv;
    cbn [foldl]; [done|].
  apply IH. rewrite processEvent_classify.
  destruct (classify state ev) eqn:Hc; simpl in *; [| |done].
  - intros i Hi. simpl in *. apply lookup_insert_is_Some'.
    apply elem_of_app in Hi as [Hi | ->%list_elem_of_singleton]; [|by left].
    right. by apply Hinv.
  - intros i Hi. simpl in *. apply lookup_insert_is_Some'. right. by apply Hinv.
Qed.

Lemma saveState_have_fingerprints (state : BotState) (events : list ParsedEvent)
    (now : string) :
  seen_have_fingerprints state →
  seen_have_fingerprints (saveState state events now).
Proof.
  intros Hinv i Hi.
  destruct (Hinv i (saveState_seen_before _ _ _ _ Hi)) as [fp Hfp].
  exists fp. by apply saveState_fingerprints.
Qed.

Lemma pollAndNotify_from_invariants (env : Env) (state : BotState)
    (events : list ParsedEvent) (ids : list Z) :
  NoDup (seenIds state) ∧ seen_have_fingerprints state →
  NoDup (seenIds (pollAndNotify_from env state events ids).1)
  ∧ seen_have_fingerprints (pollAndNotify_from env state events ids).1.
Proof.
  intros [Hnd Hfp]. rewrite pollAndNotify_from_state. case_bool_decide.
  - split; [by apply saveState_NoDup | by apply saveState_have_fingerprints].
  - split.
    + by apply saveState_NoDup, (loop_NoDup env ids events (state, [])).
    + by apply saveState_have_fingerprints,
        (loop_have_fingerprints env ids events (state, [])).
Qed.

Lemma stored_invariants (kv : option BotState) (now : string) :
  stored kv →
  NoDup (seenIds (loadState kv now)) ∧ seen_have_fingerprints (loadState kv now).
Proof.
  intros Hkv. revert now.
  induction Hkv as [|env state sent _ IH Hpoll]; intros now; simpl.
  - split; [apply NoDup_nil_2 | by intros i ?%elem_of_nil].
  - destruct (pollAndNotify_Ok env) as (events & _ & Heq).
    rewrite Heq in Hpoll. injection Hpoll as Hpoll.
    apply (f_equal fst) in Hpoll. simpl in Hpoll. subst state.
    apply pollAndNotify_from_invariants, IH.
Qed.

(** [seenIds] never lists an id twice: a cycle keeps it free of duplicates
    and so is every state found in the store. *)
Theorem seenIds_NoDup :
  (∀ env state events subscriberIds,
     NoDup (seenIds state) →
     NoDup (seenIds (pollAndNotify_from env state events subscriberIds).1))
  ∧ (∀ kv now, stored kv → NoDup (seenIds (loadState kv now))).
Proof.
  split.
  - intros env state events ids Hnd. rewrite pollAndNotify_from_state.
    case_bool_decide; [by apply saveState_NoDup|].
    by apply saveState_NoDup, (loop_NoDup env ids events (state, [])).
  - intros kv now Hkv. by apply stored_invariants.
Qed.


(** The state a cycle commits holds at most fifty ids more than the
    snapshot has events. *)
Theorem seenIds_bounded_by_snapshot (env : Env) (state : BotState)
    (events : list ParsedEvent) (subscriberIds : list Z) :
  NoDup (seenIds state) →
  length (seenIds (pollAndNotify_from env state events subscriberIds).1)
  ≤ length events + 50.
Proof.
  intros Hnd. rewrite pollAndNotify_from_state.
  set (state' := if bool_decide _ then _ else _).
  assert (NoDup (seenIds state')) as Hnd'.
  { unfold state'. case_bool_decide; [done|].
    by apply (loop_NoDup env subscriberIds events (state, [])). }
  rewrite saveState_seenIds, length_app.
  pose proof (slice_last_length 50
                (filter (λ i, i ∉ eventIds events) (seenIds state'))).
  assert (length (filter (λ i, i ∈ eventIds events) (seenIds state'))
          ≤ length events); [|lia].
  replace (length events) with (length (eventIds events))
    by (unfold eventIds; apply length_map).
  apply submseteq_length, NoDup_submseteq; [by apply NoDup_filter|].
  intros i Hi. by apply list_elem_of_filter in Hi as [? _].
Qed.



Lemma notifications_only_to_matching_witness :
  let n := {| n_chatId := 1; n_event := Sample2.ev "a"; n_isUpdate := false;
              n_success := true |} in
  n ∈ Sample2.first_cycle.2
  ∧ getSubscription Sample2.env_a 1 = Some (Sample.sub [] MI_none "all")
  ∧ n_event n ∈ [Sample2.ev "a"; Sample2.ev "b"].
Proof.
  intros n.
  assert (n ∈ Sample2.first_cycle.2) as Hn by (vm_compute; left).
  destruct (notifications_only_to_matching Sample2.env_a Sample2.empty_state
              [Sample2.ev "a"; Sample2.ev "b"] [1%Z] n Hn)
    as (Hev & _ & s & Hs & _).
  split_and!; [exact Hn | reflexivity | exact Hev].
Defined.

Lemma notifications_exact_witness :
  Sample2.first_cycle.2
  = [ {| n_chatId := 1; n_event := Sample2.ev "a"; n_isUpdate := false;
         n_success := true |};
      {| n_chatId := 1; n_event := Sample2.ev "b"; n_isUpdate := false;
         n_success := true |} ].
Proof.
  destruct (notifications_exact Sample2.env_a Sample2.empty_state
              [Sample2.ev "a"; Sample2.ev "b"] [1%Z]) as [Hsent _].
  - apply (bool_decide_unpack _). by vm_compute.
  - etrans; [exact Hsent|]. reflexivity.
Defined.

Lemma state_independent_of_delivery_witness :
  (pollAndNotify_from Sample2.env_failing Sample2.empty_state
     [Sample2.ev "a"; Sample2.ev "b"] [2%Z; 3%Z]).1
  = Sample2.first_cycle.1
  ∧ (pollAndNotify_from Sample2.env_failing Sample2.empty_state
       [Sample2.ev "a"; Sample2.ev "b"] [2%Z; 3%Z]).2 = [].
Proof.
  split; [|reflexivity].
  apply (state_independent_of_delivery Sample2.env_failing Sample2.env_a);
    [discriminate | discriminate | reflexivity].
Defined.

Lemma seenIds_NoDup_witness :
  NoDup (seenIds Sample2.first_cycle.1).
Proof.
  destruct seenIds_NoDup as [Hcycle _].
  apply (Hcycle Sample2.env_a Sample2.empty_state). apply NoDup_nil_2.
Defined.


Lemma seenIds_bounded_by_snapshot_witness :
  length (seenIds Sample2.first_cycle.1) ≤ 2 + 50.
Proof.
  apply (seenIds_bounded_by_snapshot Sample2.env_a Sample2.empty_state
           [Sample2.ev "a"; Sample2.ev "b"] [1%Z]).
  apply NoDup_nil_2.
Defined.

End cycle_more.

(** * Properties of the feed client *)

Section feed_more.
Import EpicStatus Feed Spec.



Lemma fingerprint_parts_inj (s1 s2 u1 u2 : string) :
  ¬ occurs_in ":" s1 → ¬ occurs_in ":" s2 →
  s1 +:+ ":" +:+ u1 = s2 +:+ ":" +:+ u2 → s1 = s2 ∧ u1 = u2.
Proof.
  revert s2. induction s1 as [|c s1 IH]; intros [|d s2] H1 H2 Heq;
    rewrite ?str_app_cons, ?str_app_nil_l in Heq.
  - by injection Heq as ->.
  - injection Heq as <- _. destruct H2. by exists "", s2.
  - injection Heq as -> _. destruct H1. by exists "", s1.
  - injection Heq as -> Heq. destruct (IH s2) as [-> ->]; [| |done..].
    + intros (pre & post & ->). apply H1. exists (String d pre), post.
      by rewrite str_app_cons.
    + intros (pre & post & ->). apply H2. exists (String d pre), post.
      by rewrite str_app_cons.
Qed.

(** As long as no status contains the separator [":"], equal fingerprints
    mean equal status and equal latest update id, also when both changed
    at once. *)
Theorem getFingerprint_injective_without_colon (e1 e2 : StatusEvent) :
  ¬ occurs_in ":" (status e1) → ¬ occurs_in ":" (status e2) →
  getFingerprint e1 = getFingerprint e2 →
  status e1 = status e2 ∧ latestUpdateId e1 = latestUpdateId e2.
Proof. intros H1 H2. by apply fingerprint_parts_inj. Qed.

Lemma getFingerprint_injective_without_colon_witness :
  let e := Sample.event "a" "T" "in_progress" "minor" ["7"] [] in
  status e = "in_progress" ∧ latestUpdateId e = "7".
Proof.
  intros e.
  assert (∀ s, JS.includes s ":" = false → ¬ occurs_in ":" s) as Hno.
  { intros s Hs Hocc. apply includes_spec in Hocc. congruence. }
  apply (getFingerprint_injective_without_colon e
           (Sample.event "b" "U" "in_progress" "major" ["7"; "6"] ["x"]));
    [by apply Hno | by apply Hno | reflexivity].
Defined.

(** With a colon in the status two different pairs can share a
    fingerprint. *)
Example getFingerprint_collision :
  getFingerprint (Sample.event "a" "T" "a:b" "minor" ["c"] [])
  = getFingerprint (Sample.event "a" "T" "a" "minor" ["b:c"] []).
Proof. reflexivity. Qed.

End feed_more.

(** * Properties of the subscription store *)

Section store.
Import Subscriptions Worker SubscriptionStore Spec Inv.

Lemma saveSubscription_lookup (env : Env) (chat other : Z)
    (p : PartialSubscription) (now : string) :
  getSubscription (saveSubscription env chat p now).1 other
  = if decide (other = chat) then Some (saveSubscription env chat p now).2
    else getSubscription env other.
Proof.
  unfold saveSubscription, addToSubscriberIndex, getSubscription. simpl.
  destruct (negb _); simpl; destruct (decide (other = chat)) as [->|Hne];
    by rewrite ?lookup_insert_eq, ?lookup_insert_ne.
Qed.

Lemma saveSubscription_ids (env : Env) (chat : Z) (p : PartialSubscription)
    (now : string) :
  getAllSubscriberIds (saveSubscription env chat p now).1
  = if decide (chat ∈ getAllSubscriberIds env) then getAllSubscriberIds env
    else getAllSubscriberIds env ++ [chat].
Proof.
  unfold saveSubscription, addToSubscriberIndex, getAllSubscriberIds. simpl.
  destruct (decide _) as [Hin|Hout].
  - by rewrite bool_decide_eq_true_2.
  - by rewrite bool_decide_eq_false_2.
Qed.

Lemma deleteSubscription_lookup (env : Env) (chat other : Z) :
  getSubscription (deleteSubscription env chat) other
  = if decide (other = chat) then None else getSubscription env other.
Proof.
  unfold deleteSubscription, removeFromSubscriberIndex, getSubscription. simpl.
  destruct (decide (other = chat)) as [->|Hne];
    by rewrite ?lookup_delete_eq, ?lookup_delete_ne.
Qed.

Lemma deleteSubscription_ids (env : Env) (chat : Z) :
  getAllSubscriberIds (deleteSubscription env chat)
  = filter (λ i, i ≠ chat) (getAllSubscriberIds env).
Proof. done. Qed.

(** Saving a subscription stores what it returns.  Fields the caller does
    not give keep their stored value, or the defaults (all services, no
    impact floor, all event types) for a new subscriber; the creation time
    is kept and the update time is the time of the call. *)
Theorem saveSubscription_merges (env : Env) (chat : Z)
    (p : PartialSubscription) (now : string) :
  let r := saveSubscription env chat p now in
  getSubscription r.1 chat = Some r.2
  ∧ chat ∈ getAllSubscriberIds r.1
  ∧ chatId r.2 = chat
  ∧ updatedAt r.2 = now
  ∧ (∀ old, getSubscription env chat = Some old →
       createdAt r.2 = createdAt old
       ∧ services r.2 = default (services old) (p_services p)
       ∧ minImpact r.2 = default (minImpact old) (p_minImpact p)
       ∧ eventTypes r.2 = default (eventTypes old) (p_eventTypes p))
  ∧ (getSubscription env chat = None →
       createdAt r.2 = now
       ∧ services r.2 = default [] (p_services p)
       ∧ minImpact r.2 = default MI_none (p_minImpact p)
       ∧ eventTypes r.2 = default "all" (p_eventTypes p)).
Proof.
  intros r. split_and!.
  - unfold r. rewrite saveSubscription_lookup. by destruct (decide _).
  - unfold r. rewrite saveSubscription_ids. destruct (decide _); [done|].
    apply elem_of_app. right. by left.
  - done.
  - done.
  - intros old Hold. unfold r, saveSubscription. simpl. by rewrite Hold.
  - intros Hnone. unfold r, saveSubscription. simpl. by rewrite Hnone.
Qed.

(** Saving or deleting one chat's subscription leaves every other chat's
    record and its place in the index alone, and does not touch the
    polling state. *)
Theorem subscription_writes_are_local (env : Env) (chat other : Z)
    (p : PartialSubscription) (now : string) :
  other ≠ chat →
  (getSubscription (saveSubscription env chat p now).1 other
   = getSubscription env other
   ∧ (other ∈ getAllSubscriberIds (saveSubscription env chat p now).1
      ↔ other ∈ getAllSubscriberIds env)
   ∧ STATE (saveSubscription env chat p now).1 = STATE env)
  ∧ (getSubscription (deleteSubscription env chat) other
     = getSubscription env other
     ∧ (other ∈ getAllSubscriberIds (deleteSubscription env chat)
        ↔ other ∈ getAllSubscriberIds env)
     ∧ STATE (deleteSubscription env chat) = STATE env).
Proof.
  intros Hne. split; split_and!.
  - rewrite saveSubscription_lookup. by destruct (decide _).
  - rewrite saveSubscription_ids. destruct (decide _); [done|].
    rewrite elem_of_app, list_elem_of_singleton. tauto.
  - unfold saveSubscription, addToSubscriberIndex. simpl. by destruct (negb _).
  - rewrite deleteSubscription_lookup. by destruct (decide _).
  - rewrite deleteSubscription_ids, list_elem_of_filter. tauto.
  - done.
Qed.

Lemma saveSubscription_well_indexed (env : Env) (chat : Z)
    (p : PartialSubscription) (now : string) :
  well_indexed env → well_indexed (saveSubscription env chat p now).1.
Proof.
  intros (Hnd & Hiff & Hid). split_and!.
  - rewrite saveSubscription_ids. destruct (decide _) as [Hin|Hout]; [done|].
    apply NoDup_app. split_and!; [done | | apply NoDup_singleton].
    intros i Hi ->%list_elem_of_singleton. done.
  - intros c. rewrite saveSubscription_lookup, saveSubscription_ids.
    destruct (decide (c = chat)) as [->|Hne].
    + split; [by eauto|]. intros _. destruct (decide _); [done|].
      apply elem_of_app. right. by left.
    + rewrite <-Hiff. destruct (decide _); [done|].
      rewrite elem_of_app, list_elem_of_singleton. tauto.
  - intros c s. rewrite saveSubscription_lookup.
    destruct (decide (c = chat)) as [->|Hne]; [by intros [= <-] | apply Hid].
Qed.

Lemma deleteSubscription_well_indexed (env : Env) (chat : Z) :
  well_indexed env → well_indexed (deleteSubscription env chat).
Proof.
  intros (Hnd & Hiff & Hid). split_and!.
  - rewrite deleteSubscription_ids. by apply NoDup_filter.
  - intros c. rewrite deleteSubscription_lookup, deleteSubscription_ids.
    rewrite list_elem_of_filter. destruct (decide (c = chat)) as [->|Hne].
    + split; [tauto | by intros [? [=]]].
    + rewrite <-Hiff. tauto.
  - intros c s. rewrite deleteSubscription_lookup.
    destruct (decide (c = chat)) as [->|Hne]; [done | apply Hid].
Qed.

Lemma well_indexed_empty (env : Env) :
  SUBSCRIPTIONS env = ∅ → getAllSubscriberIds env = [] → well_indexed env.
Proof.
  intros Hsubs Hids. unfold well_indexed, getSubscription. rewrite Hsubs, Hids.
  split_and!.
  - apply NoDup_nil_2.
  - intros c. rewrite lookup_empty. split; [by intros ?%elem_of_nil | by intros [? [=]]].
  - intros c s. by rewrite lookup_empty.
Qed.

(** The index and the records stay in step: if the index lists exactly
    the chats with a record, once each, under their own id, it still does
    after a subscription is saved or deleted. *)
Theorem well_indexed_preserved (env : Env) (chat : Z) (p : PartialSubscription)
    (now : string) :
  well_indexed env →
  well_indexed (saveSubscription env chat p now).1
  ∧ well_indexed (deleteSubscription env chat).
Proof.
  intros Hwi. split;
    [by apply saveSubscription_well_indexed | by apply deleteSubscription_well_indexed].
Qed.

(** After a subscription is deleted the chat has no record, is not in the
    index, and no cycle run over that index addresses a delivery to it. *)
Theorem deleteSubscription_silences (env : Env) (chat : Z) :
  let env' := deleteSubscription env chat in
  getSubscription env' chat = None
  ∧ (chat ∉ getAllSubscriberIds env')
  ∧ ∀ state events n,
      n ∈ (pollAndNotify_from env' state events (getAllSubscriberIds env')).2 →
      n_chatId n ≠ chat.
Proof.
  intros env'. split_and!.
  - unfold env'. rewrite deleteSubscription_lookup. by destruct (decide _).
  - unfold env'. rewrite deleteSubscription_ids, list_elem_of_filter. tauto.
  - intros state events n. unfold pollAndNotify_from.
    case_bool_decide; [by intros ?%elem_of_nil|].
    pose proof (loop_sent_sound env' (getAllSubscriberIds env') events (state, []) n)
      as Hsound.
    destruct (foldl _ _ _) as [state' sent]. simpl. intros Hn.
    destruct (Hsound Hn) as [Hnil | (e & upd & _ & Hin)];
      [by apply elem_of_nil in Hnil|].
    apply elem_of_notifySubscribers in Hin as (Hc & _).
    unfold env' in Hc. rewrite deleteSubscription_ids in Hc.
    by apply list_elem_of_filter in Hc as [? _].
Qed.

(** Subscribing a chat that had no record and deleting it again leaves the
    records and the list of subscribers as they were. *)
Theorem subscribe_then_delete (env : Env) (chat : Z) (p : PartialSubscription)
    (now : string) :
  well_indexed env →
  getSubscription env chat = None →
  let env' := deleteSubscription (saveSubscription env chat p now).1 chat in
  SUBSCRIPTIONS env' = SUBSCRIPTIONS env
  ∧ getAllSubscriberIds env' = getAllSubscriberIds env.
Proof.
  intros (Hnd & Hiff & _) Hnone env'. split.
  - apply map_eq. intros c. fold (getSubscription env' c) (getSubscription env c).
    unfold env'. rewrite deleteSubscription_lookup, saveSubscription_lookup.
    destruct (decide (c = chat)) as [->|]; done.
  - unfold env'. rewrite deleteSubscription_ids, saveSubscription_ids.
    assert (chat ∉ getAllSubscriberIds env) as Hout.
    { rewrite Hiff, Hnone. by intros [? [=]]. }
    destruct (decide _) as [|_]; [done|].
    rewrite filter_app, filter_cons_False by (by intros H).
    rewrite filter_nil, app_nil_r.
    apply filter_all. intros i Hi ->. done.
Qed.

Lemma notified_chats_sublist (env : Env) (ids : list Z) (e : ParsedEvent)
    (upd : bool) :
  (n_chatId <$> notifySubscribers env ids e upd) `sublist_of` ids.
Proof.
  induction ids as [|c ids IH]; simpl; [done|].
  rewrite fmap_app.
  destruct (getSubscription env c) as [s|]; [|by apply sublist_cons].
  destruct (eventMatchesSubscription e s); simpl;
    [by apply sublist_skip | by apply sublist_cons].
Qed.

(** With the index and the records in step, the chats a dispatched event is
    delivered to are those of [getMatchingSubscriptions], in the same
    order and each once; and [getMatchingSubscriptions] returns exactly
    the stored subscriptions that match. *)
Theorem getMatchingSubscriptions_agrees (env : Env) (e : ParsedEvent) (upd : bool) :
  well_indexed env →
  n_chatId <$> notifySubscribers env (getAllSubscriberIds env) e upd
  = chatId <$> getMatchingSubscriptions env e
  ∧ NoDup (n_chatId <$> notifySubscribers env (getAllSubscriberIds env) e upd)
  ∧ ∀ s, s ∈ getMatchingSubscriptions env e ↔
         getSubscription env (chatId s) = Some s
         ∧ eventMatchesSubscription e s = true.
Proof.
  intros (Hnd & Hiff & Hid). split_and!.
  - unfold notifySubscribers, getMatchingSubscriptions.
    clear Hnd Hiff.
    induction (getAllSubscriberIds env) as [|c ids IH]; simpl; [done|].
    rewrite !fmap_app, IH. f_equal.
    destruct (getSubscription env c) as [s|] eqn:Hs; [|done].
    destruct (eventMatchesSubscription e s); simpl; [|done].
    by rewrite (Hid c s Hs).
  - apply (sublist_NoDup _ (getAllSubscriberIds env)); [done|].
    apply notified_chats_sublist.
  - intros s. unfold getMatchingSubscriptions.
    rewrite list_elem_of_In, in_flat_map. split.
    + intros (c & Hc & Hin).
      destruct (getSubscription env c) as [s'|] eqn:Hs; [|done].
      destruct (eventMatchesSubscription e s') eqn:Hm; [|done].
      destruct Hin as [->|[]]. by rewrite (Hid c s Hs).
    + intros [Hs Hm]. exists (chatId s). split.
      * apply list_elem_of_In, Hiff. by rewrite Hs.
      * rewrite Hs, Hm. by left.
Qed.

(** Once a subscription is saved, a cycle run over the new index delivers
    to the chat every event of the snapshot (ids pairwise distinct) that
    is new or updated and matches the subscription as saved. *)
Theorem subscribed_chat_is_notified (env : Env) (chat : Z)
    (p : PartialSubscription) (now : string) (state : BotState)
    (events : list ParsedEvent) (e : ParsedEvent) :
  let r := saveSubscription env chat p now in
  NoDup (eventIds events) →
  e ∈ events →
  classify state e ≠ UNCHANGED →
  eventMatchesSubscription e r.2 = true →
  {| n_chatId := chat; n_event := e;
     n_isUpdate := bool_decide (classify state e = UPDATED);
     n_success := send r.1 chat e (bool_decide (classify state e = UPDATED)) |}
  ∈ (pollAndNotify_from r.1 state events (getAllSubscriberIds r.1)).2.
Proof.
  intros r Hnd He Hc Hm.
  apply (elem_of_sent_distinct r.1 state events _ e chat r.2); [done.. | | | done].
  - unfold r. rewrite saveSubscription_ids. destruct (decide _); [done|].
    apply elem_of_app. right. by left.
  - unfold r. rewrite saveSubscription_lookup. by destruct (decide _).
Qed.

Lemma saveSubscription_merges_witness :
  let r := saveSubscription Sample2.env7 7 (Sample2.only_impact MI_major) "t2" in
  getSubscription r.1 7 = Some r.2
  ∧ services r.2 = ["fortnite"]
  ∧ minImpact r.2 = MI_major
  ∧ createdAt r.2 = "t1"
  ∧ updatedAt r.2 = "t2".
Proof.
  intros r.
  destruct (saveSubscription_merges Sample2.env7 7 (Sample2.only_impact MI_major) "t2")
    as (Hget & _ & _ & Hupd & Hold & _).
  destruct (Hold (saveSubscription Sample2.env0 7
                    (Sample2.only_services ["fortnite"]) "t1").2)
    as (Hc & Hs & Hm & _); [reflexivity|].
  split_and!; [exact Hget | exact Hs | exact Hm | exact Hc | exact Hupd].
Defined.

Lemma subscription_writes_are_local_witness :
  getSubscription Sample2.env78 7 = getSubscription Sample2.env7 7
  ∧ getSubscription (deleteSubscription Sample2.env78 8) 7
    = getSubscription Sample2.env78 7.
Proof.
  split.
  - apply (subscription_writes_are_local Sample2.env7 8 7
             (Sample2.only_services []) "t2"). discriminate.
  - apply (subscription_writes_are_local Sample2.env78 8 7
             (Sample2.only_services []) "t2"). discriminate.
Defined.

Lemma well_indexed_preserved_witness :
  well_indexed Sample2.env7 ∧ well_indexed (deleteSubscription Sample2.env0 7).
Proof.
  apply (well_indexed_preserved Sample2.env0 7 (Sample2.only_services ["fortnite"]) "t1").
  by apply well_indexed_empty.
Defined.

Lemma deleteSubscription_silences_witness :
  let env' := deleteSubscription Sample2.env78 8 in
  let e :=
    EpicStatus.parseEvent
      (Sample.event "x" "Fortnite down" "investigating" "minor" ["1"] []) incident in
  let n := {| n_chatId := 7; n_event := e; n_isUpdate := false; n_success := true |} in
  getAllSubscriberIds env' = [7%Z]
  ∧ n ∈ (pollAndNotify_from env' Sample2.empty_state [e] [7%Z]).2
  ∧ n_chatId n ≠ 8%Z.
Proof.
  intros env' e n.
  destruct (deleteSubscription_silences Sample2.env78 8) as (_ & _ & Hsilent).
  assert (n ∈ (pollAndNotify_from env' Sample2.empty_state [e] [7%Z]).2) as Hn
    by (vm_compute; left).
  split_and!; [reflexivity | exact Hn |].
  exact (Hsilent Sample2.empty_state [e] n Hn).
Defined.

Lemma subscribe_then_delete_witness :
  let env' :=
    deleteSubscription
      (saveSubscription Sample2.env7 8 (Sample2.only_services []) "t2").1 8 in
  SUBSCRIPTIONS env' = SUBSCRIPTIONS Sample2.env7
  ∧ getAllSubscriberIds env' = [7%Z].
Proof.
  apply (subscribe_then_delete Sample2.env7 8 (Sample2.only_services []) "t2").
  - apply saveSubscription_well_indexed. by apply well_indexed_empty.
  - reflexivity.
Defined.

Lemma getMatchingSubscriptions_agrees_witness :
  n_chatId <$> notifySubscribers Sample2.env78 [7%Z; 8%Z] (Sample2.ev "a") false
  = chatId <$> getMatchingSubscriptions Sample2.env78 (Sample2.ev "a").
Proof.
  apply (getMatchingSubscriptions_agrees Sample2.env78 (Sample2.ev "a") false).
  do 2 apply saveSubscription_well_indexed. by apply well_indexed_empty.
Defined.

Lemma subscribed_chat_is_notified_witness :
  {| n_chatId := 8; n_event := Sample2.ev "a"; n_isUpdate := false;
     n_success := true |}
  ∈ (pollAndNotify_from Sample2.env78 Sample2.empty_state [Sample2.ev "a"]
       (getAllSubscriberIds Sample2.env78)).2.
Proof.
  apply (subscribed_chat_is_notified Sample2.env7 8 (Sample2.only_services []) "t2"
           Sample2.empty_state [Sample2.ev "a"] (Sample2.ev "a")).
  - apply (bool_decide_unpack _). by vm_compute.
  - by left.
  - by vm_compute.
  - reflexivity.
Defined.

End store.

(** * Properties of [escapeHtml] *)

Section escaping.
Import JSText Telegram.

Lemma replaceAll_app (c : ascii) (r s t : string) :
  replaceAll c r (s +:+ t) = replaceAll c r s +:+ replaceAll c r t.
Proof.
  induction s as [|a s IH]; [done|].
  rewrite str_app_cons. simpl. by rewrite IH, str_app_assoc.
Qed.

Lemma escapeHtml_app (s t : string) :
  escapeHtml (s +:+ t) = escapeHtml s +:+ escapeHtml t.
Proof. unfold escapeHtml. by rewrite !replaceAll_app. Qed.

Lemma escapeHtml_char (c : ascii) : escapeHtml (String c "") = escapeChar c.
Proof.
  unfold escapeHtml, escapeChar. simpl.
  destruct (decide (c = "&"%char)) as [->|Hamp]; [done|]. simpl.
  destruct (decide (c = "<"%char)) as [->|Hlt]; [done|]. simpl.
  by destruct (decide (c = ">"%char)) as [->|Hgt].
Qed.

Lemma escapeHtml_cons (c : ascii) (s : string) :
  escapeHtml (String c s) = escapeChar c +:+ escapeHtml s.
Proof.
  change (String c s) with (String c "" +:+ s).
  by rewrite escapeHtml_app, escapeHtml_char.
Qed.

Lemma chars_app (s t : string) : chars (s +:+ t) = chars s ++ chars t.
Proof.
  induction s as [|a s IH]; [done|].
  rewrite str_app_cons. unfold chars in *. simpl. by rewrite IH.
Qed.

Lemma escapeChar_cases (c : ascii) :
  (c = "&"%char ∧ escapeChar c = "&amp;")
  ∨ (c = "<"%char ∧ escapeChar c = "&lt;")
  ∨ (c = ">"%char ∧ escapeChar c = "&gt;")
  ∨ (c ≠ "&"%char ∧ c ≠ "<"%char ∧ c ≠ ">"%char ∧ escapeChar c = String c "").
Proof.
  unfold escapeChar.
  destruct (decide (c = "&"%char)); [by left|].
  destruct (decide (c = "<"%char)); [by right; left|].
  destruct (decide (c = ">"%char)); [by right; right; left|].
  by right; right; right.
Qed.

(** Escaped text holds no angle bracket, so it cannot open or close a tag
    in a message sent with the HTML parse mode. *)
Theorem escapeHtml_no_angle_brackets (text : string) :
  ("<"%char ∉ chars (escapeHtml text)) ∧ (">"%char ∉ chars (escapeHtml text)).
Proof.
  induction text as [|c text [IHlt IHgt]].
  - split; apply not_elem_of_nil.
  - rewrite escapeHtml_cons, chars_app.
    destruct (escapeChar_cases c)
      as [[-> ->] | [[-> ->] | [[-> ->] | (Ha & Hl & Hg & ->)]]];
      split; intros [H|H]%elem_of_app; try done;
      unfold chars in H; simpl in H;
      repeat (apply elem_of_cons in H as [H|H]; [congruence|]);
      by apply elem_of_nil in H.
Qed.

Lemma escapeHtml_length (s : string) :
  String.length s ≤ String.length (escapeHtml s).
Proof.
  induction s as [|c s IH]; [done|].
  rewrite escapeHtml_cons, str_length_app. simpl.
  destruct (escapeChar_cases c)
    as [[-> ->] | [[-> ->] | [[-> ->] | (_ & _ & _ & ->)]]]; simpl; lia.
Qed.

(** Escaping works character by character, each of [&], [<] and [>]
    being replaced once (the [&] of an entity is not escaped again), and
    it changes a text exactly when one of the three occurs in it. *)
Theorem escapeHtml_charwise (s t : string) :
  escapeHtml (s +:+ t) = escapeHtml s +:+ escapeHtml t
  ∧ escapeHtml "&" = "&amp;" ∧ escapeHtml "<" = "&lt;" ∧ escapeHtml ">" = "&gt;"
  ∧ (escapeHtml s = s ↔
     ("&"%char ∉ chars s) ∧ ("<"%char ∉ chars s) ∧ (">"%char ∉ chars s)).
Proof.
  split_and!; [apply escapeHtml_app | done.. |].
  induction s as [|c s IH].
  - split; [|done]. intros _. split_and!; apply not_elem_of_nil.
  - rewrite escapeHtml_cons. unfold chars in *. simpl.
    rewrite !not_elem_of_cons.
    pose proof (escapeHtml_length s) as Hlen.
    destruct (escapeChar_cases c)
      as [[-> ->] | [[-> ->] | [[-> ->] | (Ha & Hl & Hg & ->)]]].
    + split; [|tauto]. rewrite !str_app_cons, str_app_nil_l.
      intros H. apply (f_equal String.length) in H. simpl in H. lia.
    + split; [|tauto]. rewrite !str_app_cons, str_app_nil_l.
      intros H. apply (f_equal String.length) in H. simpl in H. lia.
    + split; [|tauto]. rewrite !str_app_cons, str_app_nil_l.
      intros H. apply (f_equal String.length) in H. simpl in H. lia.
    + rewrite str_app_cons, str_app_nil_l. split.
      * intros [= H]. apply IH in H as (? & ? & ?).
        split_and!; first [done | congruence].
      * intros ((? & ?) & (? & ?) & (? & ?)). f_equal. apply IH. by split_and!.
Qed.

(** Escaping loses nothing: different texts have different escaped forms. *)
Theorem escapeHtml_injective (s t : string) :
  escapeHtml s = escapeHtml t → s = t.
Proof.
  revert t. induction s as [|c s IH]; intros [|d t].
  - done.
  - rewrite escapeHtml_cons.
    destruct (escapeChar_cases d)
      as [[-> ->] | [[-> ->] | [[-> ->] | (_ & _ & _ & ->)]]]; discriminate.
  - rewrite escapeHtml_cons.
    destruct (escapeChar_cases c)
      as [[-> ->] | [[-> ->] | [[-> ->] | (_ & _ & _ & ->)]]]; discriminate.
  - rewrite !escapeHtml_cons.
    destruct (escapeChar_cases c)
      as [[-> ->] | [[-> ->] | [[-> ->] | (Hc1 & Hc2 & Hc3 & ->)]]];
      destruct (escapeChar_cases d)
        as [[-> ->] | [[-> ->] | [[-> ->] | (Hd1 & Hd2 & Hd3 & ->)]]];
      rewrite ?str_app_cons, ?str_app_nil_l; intros [= H]; subst;
      try done; f_equal; by apply IH.
Qed.

Lemma escapeHtml_injective_witness :
  Telegram.escapeHtml "a<b & c" = "a&lt;b &amp; c" ∧ "a<b & c" = "a<b & c".
Proof.
  split; [reflexivity|].
  apply (escapeHtml_injective "a<b & c" "a<b & c"). reflexivity.
Defined.

Lemma escapeHtml_charwise_witness :
  Telegram.escapeHtml "Fortnite" = "Fortnite".
Proof.
  apply (escapeHtml_charwise "Fortnite" "").
  split_and!; unfold Telegram.chars; simpl; intros H;
    repeat (apply elem_of_cons in H as [H|H]; [discriminate|]);
    by apply elem_of_nil in H.
Defined.

End escaping.

(** * Properties of the commands *)

Section tokens.
Import JSText Spec CmdSpec.

Lemma chars_snoc (s : string) (c : ascii) :
  list_ascii_of_string (s +:+ String c "") = list_ascii_of_string s ++ [c].
Proof.
  induction s as [|a s IH]; [done|]. rewrite str_app_cons. simpl. by rewrite IH.
Qed.

Lemma no_space_empty : no_space "".
Proof. intros c Hc. by apply elem_of_nil in Hc. Qed.

Lemma no_space_snoc (s : string) (c : ascii) :
  no_space s → is_space c = false → no_space (s +:+ String c "").
Proof.
  intros Hs Hc a Ha. rewrite chars_snoc in Ha.
  apply elem_of_app in Ha as [Ha | ->%list_elem_of_singleton]; [by apply Hs | done].
Qed.

(** The pieces cut by [split(/\s+/)] hold no white space. *)
Lemma split_ws_go_no_space (s cur : string) (skipping : bool) (t : string) :
  no_space cur → t ∈ split_ws_go cur skipping s → no_space t.
Proof.
  revert cur skipping. induction s as [|c s IH]; intros cur skipping Hcur Ht;
    simpl in Ht.
  - by apply list_elem_of_singleton in Ht as ->.
  - destruct (is_space c) eqn:Hc.
    + destruct skipping.
      * by apply (IH cur true).
      * apply elem_of_cons in Ht as [->|Ht]; [done|].
        apply (IH "" true); [apply no_space_empty | done].
    + apply (IH (cur +:+ String c "") false); [|done]. by apply no_space_snoc.
Qed.

(** When the text ends in a character that is not white space, so does
    the last piece. *)
Lemma split_ws_go_last (s cur : string) (skipping : bool) (c : ascii) :
  is_space c = false →
  ∃ init t, split_ws_go cur skipping (s +:+ String c "") = init ++ [t +:+ String c ""].
Proof.
  intros Hc. revert cur skipping. induction s as [|a s IH]; intros cur skipping.
  - rewrite str_app_nil_l. simpl. rewrite Hc. by exists [], cur.
  - rewrite str_app_cons. simpl. destruct (is_space a).
    + destruct skipping.
      * apply IH.
      * destruct (IH "" true) as (init & t & ->). by exists (cur :: init), t.
    + apply IH.
Qed.

Lemma trimEnd_cases (s : string) :
  trimEnd s = "" ∨ ∃ s' c, trimEnd s = s' +:+ String c "" ∧ is_space c = false.
Proof.
  induction s as [|a s IH]; [by left|]. simpl.
  destruct (is_space a) eqn:Ha; simpl.
  - case_bool_decide as Hr; [by left|]. right.
    destruct IH as [?|(s' & c & -> & Hc)]; [done|].
    exists (String a s'), c. by rewrite str_app_cons.
  - right. destruct IH as [->|(s' & c & -> & Hc)].
    + by exists "", a.
    + exists (String a s'), c. by rewrite str_app_cons.
Qed.

Lemma ends_with_space_no_space (s : string) :
  no_space s → ¬ ends_with_space s.
Proof.
  intros Hs [s' ->]. specialize (Hs " "%char). rewrite chars_snoc in Hs.
  discriminate Hs. apply elem_of_app. right. by left.
Qed.

Lemma join_snoc (sep : string) (xs : list string) (x : string) :
  xs ≠ [] → JS.join sep (xs ++ [x]) = JS.join sep xs +:+ sep +:+ x.
Proof.
  induction xs as [|y xs IH]; [done|]. intros _.
  destruct xs as [|z xs]; [done|].
  change (JS.join sep ((y :: z :: xs) ++ [x]))
    with (y +:+ sep +:+ JS.join sep ((z :: xs) ++ [x])).
  rewrite IH by done.
  change (JS.join sep (y :: z :: xs)) with (y +:+ sep +:+ JS.join sep (z :: xs)).
  by rewrite !str_app_assoc.
Qed.

(** Joining pieces of which the last ends in a character other than a
    space gives a string that does not end in a space. *)
Lemma join_last_not_space (xs : list string) (t : string) (c : ascii) :
  c ≠ " "%char → ¬ ends_with_space (JS.join " " (xs ++ [t +:+ String c ""])).
Proof.
  intros Hc [s' H]. destruct xs as [|x xs].
  - simpl in H. by apply str_snoc_inv in H as [_ ?].
  - rewrite join_snoc in H by done. rewrite <-!str_app_assoc in H.
    by apply str_snoc_inv in H as [_ ?].
Qed.

End tokens.

Section commands.
Import JSText Subscriptions Worker SubscriptionStore Commands CmdSpec Spec.

Lemma saveSubscription_value (env : Env) (chat : Z) (p : PartialSubscription)
    (now : string) (old : UserSubscription) :
  getSubscription env chat = Some old →
  (saveSubscription env chat p now).2
  = {| chatId := chat;
       services := default (services old) (p_services p);
       minImpact := default (minImpact old) (p_minImpact p);
       eventTypes := default (eventTypes old) (p_eventTypes p);
       createdAt := createdAt old;
       updatedAt := now |}.
Proof. intros H. unfold saveSubscription. simpl. by rewrite H. Qed.

Lemma handleFilter_effect (env : Env) (chat : Z) (args : list string) (now : string) :
  ∃ eff text,
    handleFilter env chat args now = (apply_effect env chat now eff, [(chat, text)])
    ∧ filter_effect env chat args eff.
Proof.
  unfold handleFilter. destruct args as [|arg0 rest]; [by eexists E_none, _|].
  destruct (getSubscription env chat) as [sub|] eqn:Hsub; [|by eexists E_none, _].
  cbv zeta.
  destruct (decide (JS.toLowerCase arg0 = "all")) as [Hall|Hall].
  { eexists (E_save _), _. split; [done|]. exists sub. split; [done|]. by left. }
  destruct (decide (JS.toLowerCase arg0 = "incidents")) as [Hinc|Hinc].
  { eexists (E_save _), _. split; [done|]. exists sub. split; [done|].
    right; left. exists "incidents". split; [|done]. set_solver. }
  destruct (decide (JS.toLowerCase arg0 = "maintenance")) as [Hmnt|Hmnt].
  { eexists (E_save _), _. split; [done|]. exists sub. split; [done|].
    right; left. exists "maintenance". split; [|done]. set_solver. }
  destruct (decide (JS.toLowerCase arg0 = "events")) as [Hev|Hev].
  { destruct (decide (_ = "all")); [|by eexists E_none, _].
    eexists (E_save _), _. split; [done|]. exists sub. split; [done|].
    right; left. exists "all". split; [|done]. set_solver. }
  destruct (decide (JS.toLowerCase arg0 = "impact")) as [Himp|Himp].
  { destruct (MinImpact_of_str _) as [m|]; [|by eexists E_none, _].
    eexists (E_save _), _. split; [done|]. exists sub. split; [done|].
    right; right; left. by exists m. }
  eexists (E_save _), _. split; [done|]. exists sub. split; [done|].
  right; right; right. exists arg0, rest. split_and!; [done | | done].
  unfold FILTER_KEYWORDS. rewrite !not_elem_of_cons. split_and!; try done.
  apply not_elem_of_nil.
Qed.





Lemma MinImpact_of_str_None (s : string) :
  MinImpact_of_str s = None ↔ s ∉ IMPACT_LEVELS.
Proof.
  unfold MinImpact_of_str, IMPACT_LEVELS. rewrite !not_elem_of_cons.
  repeat (destruct (decide _) as [->|?]; [split; [done | by intros (? & ? & ? & ? & _)]|]).
  split; [|done]. intros _. split_and!; try done. apply not_elem_of_nil.
Qed.


(** A [/filter] command changes at most one of the three filter
    dimensions of the sender's subscription, never its creation time and
    never another chat's subscription, and it answers the sender with
    exactly one message. *)
Theorem handleFilter_changes_one_dimension (env : Env) (chat : Z)
    (args : list string) (now : string) (sub : UserSubscription) :
  getSubscription env chat = Some sub →
  let r := handleFilter env chat args now in
  (∃ text, r.2 = [(chat, text)])
  ∧ (∃ sub',
       getSubscription r.1 chat = Some sub'
       ∧ createdAt sub' = createdAt sub
       ∧ ((services sub' = services sub ∧ minImpact sub' = minImpact sub)
          ∨ (services sub' = services sub ∧ eventTypes sub' = eventTypes sub)
          ∨ (minImpact sub' = minImpact sub ∧ eventTypes sub' = eventTypes sub)))
  ∧ (∀ other, other ≠ chat → getSubscription r.1 other = getSubscription env other).
Proof.
  intros Hsub r.
  destruct (handleFilter_effect env chat args now) as (eff & text & Heq & Heff).
  unfold r. rewrite Heq. cbn [fst snd]. split; [by eexists|].
  destruct eff as [| |p]; cbn [apply_effect filter_effect] in *; [|done|].
  - split; [|done]. exists sub. tauto.
  - split.
    + eexists. rewrite saveSubscription_lookup. destruct (decide _); [|done].
      split; [done|]. rewrite (saveSubscription_value _ _ _ _ sub) by done. simpl.
      split; [done|].
      destruct Heff as (sub0 & Hsub0 & Hp). rewrite Hsub in Hsub0.
      injection Hsub0 as <-.
      destruct Hp as [-> | [(t & _ & ->) | [(m & ->) | (a & l & _ & _ & ->)]]];
        simpl; tauto.
    + intros other Hne. rewrite saveSubscription_lookup. by destruct (decide _).
Qed.

(** [/filter] leaves the store untouched when it has no argument, when the
    sender has no subscription, when the impact named is not one of the
    four levels, and when [events] is followed by anything but [all]. *)
Theorem handleFilter_no_effect (env : Env) (chat : Z) (now : string) :
  (handleFilter env chat [] now).1 = env
  ∧ (∀ args, getSubscription env chat = None →
       (handleFilter env chat args now).1 = env)
  ∧ (∀ arg0 rest,
       JS.toLowerCase arg0 = "impact" →
       JS.toLowerCase (JS.join " " rest) ∉ IMPACT_LEVELS →
       (handleFilter env chat (arg0 :: rest) now).1 = env)
  ∧ (∀ arg0 rest,
       JS.toLowerCase arg0 = "events" →
       JS.toLowerCase (JS.join " " rest) ≠ "all" →
       (handleFilter env chat (arg0 :: rest) now).1 = env).
Proof.
  split_and!.
  - done.
  - intros [|arg0 rest] Hnone; [done|]. unfold handleFilter. by rewrite Hnone.
  - intros arg0 rest Himp Hval. unfold handleFilter.
    destruct (getSubscription env chat); [|done]. cbv zeta. rewrite Himp.
    apply MinImpact_of_str_None in Hval. by rewrite Hval.
  - intros arg0 rest Hev Hval. unfold handleFilter.
    destruct (getSubscription env chat); [|done]. cbv zeta. rewrite Hev.
    simpl. by destruct (decide _).
Qed.

(** When the first word after [/filter] is [all], [incidents] or
    [maintenance] (in any letter case) the words after it are ignored: a
    service whose name starts with one of them cannot be added. *)
Theorem handleFilter_keyword_first (env : Env) (chat : Z) (arg0 : string)
    (rest : list string) (now : string) :
  JS.toLowerCase arg0 ∈ ["all"; "incidents"; "maintenance"] →
  handleFilter env chat (arg0 :: rest) now = handleFilter env chat [arg0] now.
Proof.
  intros Hkw. unfold handleFilter.
  destruct (getSubscription env chat); [|done]. cbv zeta.
  repeat (apply elem_of_cons in Hkw as [->|Hkw]; [done|]).
  by apply elem_of_nil in Hkw.
Qed.

(** [/start] from a chat that is already subscribed keeps its filters and
    its creation time; [/subscribe] resets the watched services to the
    words given (all services when there are none) and keeps the rest. *)
Theorem start_and_subscribe_keep_settings (env : Env) (chat : Z)
    (args : list string) (now : string) (sub : UserSubscription) :
  getSubscription env chat = Some sub →
  getSubscription (handleStart env chat now).1 chat
  = Some {| chatId := chat; services := services sub; minImpact := minImpact sub;
            eventTypes := eventTypes sub; createdAt := createdAt sub;
            updatedAt := now |}
  ∧ getSubscription (handleSubscribe env chat args now).1 chat
    = Some {| chatId := chat; services := args; minImpact := minImpact sub;
              eventTypes := eventTypes sub; createdAt := createdAt sub;
              updatedAt := now |}.
Proof.
  intros Hsub. unfold handleStart, handleSubscribe. cbv zeta. cbn [fst].
  rewrite !saveSubscription_lookup. destruct (decide _); [|done].
  rewrite !(saveSubscription_value _ _ _ _ sub) by done. simpl.
  split; [done|]. by destruct args.
Qed.

Lemma split_ws_go_nonempty (s cur : string) (skipping : bool) :
  split_ws_go cur skipping s ≠ [].
Proof.
  revert cur skipping. induction s as [|c s IH]; intros cur skipping; simpl; [done|].
  destruct (is_space c); [destruct skipping|]; [apply IH | done | apply IH].
Qed.

Ltac sent_to_sender :=
  let c := fresh "c" in
  let t := fresh "t" in
  let H := fresh "H" in
  intros c t H;
  repeat (apply elem_of_cons in H as [[= -> _]|H]; [done|]);
  by apply elem_of_nil in H.

Lemma handleMessage_effect (env : Env) (m : TelegramMessage) (now : string) :
  ∃ eff sent,
    handleMessage env m now = Ok (apply_effect env (chat_id m) now eff, sent)
    ∧ message_effect env m eff
    ∧ ∀ c t, (c, t) ∈ sent → c = chat_id m.
Proof.
  unfold handleMessage. cbv zeta. fold (text_of m).
  destruct (split_ws (text_of m)) as [|command args] eqn:Hsplit.
  { by apply split_ws_go_nonempty in Hsplit. }
  destruct (decide (_ = "/start")).
  { eexists (E_save no_fields), _. split_and!; [done | by left | sent_to_sender]. }
  destruct (decide (_ = "/subscribe")).
  { eexists (E_save _), _. split_and!; [done | | sent_to_sender].
    right. exists command, args. split; [done|]. left. by destruct args. }
  destruct (decide (_ = "/unsubscribe")).
  { eexists E_delete, _. split_and!; [done | done | sent_to_sender]. }
  destruct (decide (_ = "/settings")).
  { unfold handleSettings. destruct (getSubscription env (chat_id m));
      eexists E_none, _; (split_and!; [done | done | sent_to_sender]). }
  destruct (decide (_ = "/filter")).
  { destruct (handleFilter_effect env (chat_id m) args now)
      as (eff & text & -> & Heff).
    exists eff. eexists. split_and!; [done | | sent_to_sender].
    destruct eff; [done.. |]. right. by exists command, args; split; [|right]. }
  destruct (decide (_ = "/status")).
  { unfold handleStatus.
    destruct (fetchAllEvents_Ok (fetch env)) as (i & a & u & _ & _ & _ & -> & _).
    cbn [mbind Exc_bind]. case_bool_decide;
      eexists E_none, _; (split_and!; [done | done | sent_to_sender]). }
  destruct (decide (_ = "/help")).
  { eexists E_none, _. split_and!; [done | done | sent_to_sender]. }
  destruct (JS.startsWith _ _);
    eexists E_none, _; (split_and!; [done | done | sent_to_sender]).
Qed.

Lemma apply_effect_lookup (env : Env) (chat : Z) (now : string) (eff : Effect)
    (c : Z) (s : UserSubscription) :
  getSubscription (apply_effect env chat now eff) c = Some s →
  getSubscription env c = Some s
  ∨ (c = chat ∧ ∃ p, eff = E_save p ∧ s = (saveSubscription env chat p now).2).
Proof.
  destruct eff as [| |p]; cbn [apply_effect].
  - by left.
  - rewrite deleteSubscription_lookup. destruct (decide _); [done | by left].
  - rewrite saveSubscription_lookup. destruct (decide _) as [->|]; [|by left].
    intros [= <-]. right. split; [done|]. by exists p.
Qed.

Lemma apply_effect_other (env : Env) (chat : Z) (now : string) (eff : Effect)
    (other : Z) :
  other ≠ chat →
  getSubscription (apply_effect env chat now eff) other = getSubscription env other.
Proof.
  intros Hne. destruct eff as [| |p]; cbn [apply_effect]; [done | |].
  - rewrite deleteSubscription_lookup. by destruct (decide _).
  - rewrite saveSubscription_lookup. by destruct (decide _).
Qed.

Lemma apply_effect_STATE (env : Env) (chat : Z) (now : string) (eff : Effect) :
  STATE (apply_effect env chat now eff) = STATE env.
Proof.
  destruct eff as [| |p]; cbn [apply_effect]; [done..|].
  unfold saveSubscription, addToSubscriberIndex. simpl. by destruct (negb _).
Qed.

Lemma apply_effect_well_indexed (env : Env) (chat : Z) (now : string) (eff : Effect) :
  well_indexed env → well_indexed (apply_effect env chat now eff).
Proof.
  intros Hwi. destruct eff as [| |p]; cbn [apply_effect]; [done | |].
  - by apply deleteSubscription_well_indexed.
  - by apply saveSubscription_well_indexed.
Qed.

(** A message never makes the handler fail.  Whatever the text, the
    replies go to the sender only, the polling state and the other chats'
    subscriptions are left alone, and the index stays in step with the
    records. *)
Theorem handleMessage_is_local (env : Env) (m : TelegramMessage) (now : string) :
  ∃ env' sent,
    handleMessage env m now = Ok (env', sent)
    ∧ STATE env' = STATE env
    ∧ (∀ c t, (c, t) ∈ sent → c = chat_id m)
    ∧ (∀ other, other ≠ chat_id m →
         getSubscription env' other = getSubscription env other)
    ∧ (well_indexed env → well_indexed env').
Proof.
  destruct (handleMessage_effect env m now) as (eff & sent & -> & _ & Hsent).
  eexists _, _. split_and!; [done | | done | |].
  - apply apply_effect_STATE.
  - intros other. apply apply_effect_other.
  - apply apply_effect_well_indexed.
Qed.

Lemma message_effect_eventTypes (env : Env) (m : TelegramMessage)
    (p : PartialSubscription) (t : string) :
  message_effect env m (E_save p) → p_eventTypes p = Some t →
  t ∈ ["all"; "incidents"; "maintenance"].
Proof.
  intros [-> | (command & args & _ & [-> | (sub & _ & Hp)])]; [done.. |].
  destruct Hp as [-> | [(t' & Ht' & ->) | [(mi & ->) | (a & l & _ & _ & ->)]]];
    try done. by intros [= <-].
Qed.

Lemma effect_eventTypes_valid (env : Env) (m : TelegramMessage) (now : string)
    (eff : Effect) :
  eventTypes_valid env → message_effect env m eff →
  eventTypes_valid (apply_effect env (chat_id m) now eff).
Proof.
  intros Hvalid Heff c s Hs.
  apply apply_effect_lookup in Hs as [Hs | (-> & p & -> & ->)].
  - by apply (Hvalid c).
  - unfold saveSubscription. cbn [snd eventTypes].
    destruct (p_eventTypes p) as [t|] eqn:Hp; cbn [default from_option id].
    + by apply (message_effect_eventTypes env m p).
    + destruct (getSubscription env (chat_id m)) as [old|] eqn:Hold; simpl.
      * by apply (Hvalid (chat_id m)).
      * by left.
Qed.

(** The event-type filter of every stored subscription stays one of
    [all], [incidents] and [maintenance], which are the values the matcher
    tells apart. *)
Theorem handleMessage_eventTypes_valid (env env' : Env) (m : TelegramMessage)
    (now : string) (sent : Sent) :
  eventTypes_valid env →
  handleMessage env m now = Ok (env', sent) →
  eventTypes_valid env'.
Proof.
  intros Hvalid Hm.
  destruct (handleMessage_effect env m now) as (eff & sent' & Heq & Heff & _).
  rewrite Heq in Hm. injection Hm as <- _.
  by apply effect_eventTypes_valid.
Qed.

Lemma elem_of_toggleService (current : list string) (name f : string) :
  f ∈ toggleService current name → f ∈ current ∨ f = name.
Proof.
  unfold toggleService. destruct (decide _); [by intros ?%elem_of_nil|].
  case_bool_decide; [intros ->%list_elem_of_singleton; by right|].
  case_bool_decide.
  - cbv zeta. case_bool_decide; [by intros ?%elem_of_nil|].
    intros [_ ?]%list_elem_of_filter. by left.
  - intros [?|Hf]%elem_of_app; [by left|].
    apply list_elem_of_singleton in Hf as ->. by right.
Qed.

Lemma text_of_cases (m : TelegramMessage) :
  text_of m = "" ∨ ∃ s' c, text_of m = s' +:+ String c "" ∧ is_space c = false.
Proof.
  unfold text_of, JS.or_else. destruct (decide _) as [|_]; [by left|].
  destruct (text m) as [t|]; simpl; [|by left]. apply trimEnd_cases.
Qed.

Lemma args_join_tidy (m : TelegramMessage) (command : string) (args : list string) :
  split_ws (text_of m) = command :: args → args ≠ [] →
  ¬ ends_with_space (JS.join " " args).
Proof.
  intros Hsplit Hargs.
  destruct (text_of_cases m) as [Hempty | (s' & c & Htext & Hc)].
  - rewrite Hempty in Hsplit. injection Hsplit as _ <-. done.
  - rewrite Htext in Hsplit. unfold split_ws in Hsplit.
    destruct (split_ws_go_last s' "" false c Hc) as (init & t & Hlast).
    rewrite Hlast in Hsplit. destruct init as [|x init].
    + injection Hsplit as _ <-. done.
    + injection Hsplit as _ <-. apply join_last_not_space. by intros ->.
Qed.

Lemma message_effect_services (env : Env) (m : TelegramMessage)
    (p : PartialSubscription) (svcs : list string) (f : string) :
  message_effect env m (E_save p) → p_services p = Some svcs → f ∈ svcs →
  ¬ ends_with_space f
  ∨ ∃ old, getSubscription env (chat_id m) = Some old ∧ f ∈ services old.
Proof.
  intros [-> | (command & args & Hsplit & [-> | (sub & Hsub & Hp)])]; [done | |].
  - intros [= <-] Hf. left. apply ends_with_space_no_space.
    apply (split_ws_go_no_space (text_of m) "" false f); [apply no_space_empty|].
    fold (split_ws (text_of m)). rewrite Hsplit. by right.
  - destruct Hp as [-> | [(t' & _ & ->) | [(mi & ->) | (a & l & Hargs & _ & ->)]]];
      [by intros [= <-] ?%elem_of_nil | done | done |].
    intros [= <-] [Hf | ->]%elem_of_toggleService.
    + right. by exists sub.
    + left. apply (args_join_tidy m command); [done | by rewrite Hargs].
Qed.

Lemma effect_services_tidy (env : Env) (m : TelegramMessage) (now : string)
    (eff : Effect) :
  services_tidy env → message_effect env m eff →
  services_tidy (apply_effect env (chat_id m) now eff).
Proof.
  intros Htidy Heff c s f Hs Hf.
  apply apply_effect_lookup in Hs as [Hs | (-> & p & -> & ->)].
  - by apply (Htidy c s).
  - unfold saveSubscription in Hf. cbn [snd services] in Hf.
    destruct (p_services p) as [svcs|] eqn:Hp; cbn [default from_option id] in Hf.
    + destruct (message_effect_services env m p svcs f Heff Hp Hf)
        as [? | (old & Hold & Hin)]; [done|].
      by apply (Htidy (chat_id m) old).
    + destruct (getSubscription env (chat_id m)) as [old|] eqn:Hold;
        simpl in Hf; [by apply (Htidy (chat_id m) old) | by apply elem_of_nil in Hf].
Qed.


Ltac not_in_list :=
  let H := fresh "H" in
  intros H; repeat (apply elem_of_cons in H as [H|H]; [discriminate|]);
  by apply elem_of_nil in H.


Lemma handleFilter_changes_one_dimension_witness :
  let r := handleFilter Sample2.env7 7 ["impact"; "MAJOR"] "t2" in
  ∃ sub', getSubscription r.1 7 = Some sub'
          ∧ createdAt sub' = "t1" ∧ minImpact sub' = MI_major.
Proof.
  intros r.
  destruct (handleFilter_changes_one_dimension Sample2.env7 7 ["impact"; "MAJOR"] "t2"
              Sample3.sub7) as (_ & (sub' & Hsub' & Hcreated & _) & _);
    [reflexivity|].
  exists sub'. split_and!; [exact Hsub' | exact Hcreated |].
  assert (Some sub' = Some {| chatId := 7; services := ["fortnite"];
            minImpact := MI_major; eventTypes := "all"; createdAt := "t1";
            updatedAt := "t2" |}) as Hval by (rewrite <-Hsub'; reflexivity).
  by injection Hval as ->.
Defined.

Lemma handleFilter_no_effect_witness :
  (handleFilter Sample2.env0 7 ["fortnite"] "t2").1 = Sample2.env0
  ∧ (handleFilter Sample2.env7 7 ["impact"; "huge"] "t2").1 = Sample2.env7
  ∧ (handleFilter Sample2.env7 7 ["events"; "none"] "t2").1 = Sample2.env7.
Proof.
  split_and!.
  - apply (proj1 (proj2 (handleFilter_no_effect Sample2.env0 7 "t2"))). reflexivity.
  - apply (proj1 (proj2 (proj2 (handleFilter_no_effect Sample2.env7 7 "t2")))).
    + reflexivity.
    + not_in_list.
  - apply (proj2 (proj2 (proj2 (handleFilter_no_effect Sample2.env7 7 "t2")))).
    + reflexivity.
    + discriminate.
Defined.

Lemma handleFilter_keyword_first_witness :
  handleFilter Sample2.env7 7 ["All"; "Stars"] "t2"
  = handleFilter Sample2.env7 7 ["All"] "t2".
Proof.
  apply handleFilter_keyword_first. simpl. by left.
Defined.

Lemma start_and_subscribe_keep_settings_witness :
  getSubscription (handleStart Sample2.env7 7 "t2").1 7
  = Some {| chatId := 7; services := ["fortnite"]; minImpact := MI_none;
            eventTypes := "all"; createdAt := "t1"; updatedAt := "t2" |}
  ∧ getSubscription (handleSubscribe Sample2.env7 7 [] "t2").1 7
    = Some {| chatId := 7; services := []; minImpact := MI_none;
              eventTypes := "all"; createdAt := "t1"; updatedAt := "t2" |}.
Proof.
  apply (start_and_subscribe_keep_settings Sample2.env7 7 [] "t2" Sample3.sub7).
  reflexivity.
Defined.

Lemma consistent_env7_parts :
  well_indexed Sample2.env7 ∧ eventTypes_valid Sample2.env7
  ∧ services_tidy Sample2.env7.
Proof.
  assert (message_effect Sample2.env0 (Sample3.msg 7 "/subscribe fortnite")
            (E_save (Sample2.only_services ["fortnite"]))) as Heff.
  { right. exists "/subscribe", ["fortnite"]. split; [reflexivity | by left]. }
  change Sample2.env7
    with (apply_effect Sample2.env0 (chat_id (Sample3.msg 7 "/subscribe fortnite"))
            "t1" (E_save (Sample2.only_services ["fortnite"]))).
  split_and!.
  - apply saveSubscription_well_indexed. by apply well_indexed_empty.
  - apply effect_eventTypes_valid; [|exact Heff].
    intros c s. unfold getSubscription. simpl. by rewrite lookup_empty.
  - apply effect_services_tidy; [|exact Heff].
    intros c s f. unfold getSubscription. simpl. by rewrite lookup_empty.
Qed.

Lemma handleMessage_is_local_witness :
  ∃ env' sent,
    handleMessage Sample2.env78 (Sample3.msg 8 "/unsubscribe") "t3" = Ok (env', sent)
    ∧ getSubscription env' 7 = Some Sample3.sub7.
Proof.
  destruct (handleMessage_is_local Sample2.env78 (Sample3.msg 8 "/unsubscribe") "t3")
    as (env' & sent & Heq & _ & _ & Hother & _).
  exists env', sent. split; [exact Heq|].
  rewrite (Hother 7%Z) by discriminate. reflexivity.
Defined.

Lemma handleMessage_eventTypes_valid_witness :
  match handleMessage Sample2.env7 (Sample3.msg 7 "/filter incidents") "t2" with
  | Ok (env', _) => eventTypes_valid env'
  | Throw _ => False
  end.
Proof.
  destruct (handleMessage Sample2.env7 (Sample3.msg 7 "/filter incidents") "t2")
    as [[env' sent]|err] eqn:Hm.
  - apply (handleMessage_eventTypes_valid Sample2.env7 env'
             (Sample3.msg 7 "/filter incidents") "t2" sent);
      [apply consistent_env7_parts | exact Hm].
  - vm_compute in Hm. discriminate.
Defined.


End commands.

(** * Properties of the entry points *)

Section entry.
Import Worker SubscriptionStore Commands CmdSpec Entry.

Lemma poll_Ok (env : Env) :
  ∃ r, pollAndNotify env = Ok r
       ∧ poll env = Ok {| o_env := with_state env r.1; o_sent := [];
                          o_notified := r.2 |}.
Proof.
  destruct (pollAndNotify_Ok env) as (events & _ & Heq).
  eexists. split; [done|]. unfold poll. by rewrite Heq.
Qed.

(** With a webhook secret configured, an update that does not carry that
    secret in its header is answered 401 and has no effect: no command
    runs, nothing is sent, nothing is stored. *)
Theorem handleWebhook_requires_secret (cfg : Config) (env : Env)
    (request : Request) (now secret : string) :
  WEBHOOK_SECRET cfg = Some secret → secret ≠ "" →
  secret_header request ≠ Some secret →
  handleWebhook cfg env request now
  = ({| r_text := "Unauthorized"; r_status := 401 |}, unchanged env)
  ∧ (pathname request = "/webhook" → method request = "POST" →
     handleRequest cfg env request now
     = Ok ({| r_text := "Unauthorized"; r_status := 401 |}, unchanged env)).
Proof.
  intros Hsecret Hne Hheader.
  assert (handleWebhook cfg env request now
          = ({| r_text := "Unauthorized"; r_status := 401 |}, unchanged env)) as Hw.
  { unfold handleWebhook, secret_configured. rewrite Hsecret.
    by rewrite bool_decide_eq_false_2, bool_decide_eq_false_2. }
  split; [done|]. intros Hpath Hmethod. unfold handleRequest.
  rewrite Hpath, Hmethod. simpl. by rewrite Hw.
Qed.


Lemma consistent_empty (env : Env) :
  SUBSCRIPTIONS env = ∅ → getAllSubscriberIds env = [] → STATE env = None →
  consistent env.
Proof.
  intros Hsubs Hids Hstate. split_and!.
  - by apply well_indexed_empty.
  - intros c s. unfold getSubscription. by rewrite Hsubs, lookup_empty.
  - intros c s f. unfold getSubscription. by rewrite Hsubs, lookup_empty.
  - rewrite Hstate. apply stored_initial.
Qed.

Lemma consistent_effect (env : Env) (m : TelegramMessage) (now : string)
    (eff : Effect) :
  consistent env → message_effect env m eff →
  consistent (apply_effect env (chat_id m) now eff).
Proof.
  intros (Hwi & Hev & Htidy & Hstored) Heff. split_and!.
  - by apply apply_effect_well_indexed.
  - by apply effect_eventTypes_valid.
  - by apply effect_services_tidy.
  - by rewrite apply_effect_STATE.
Qed.

Lemma consistent_poll (env : Env) (outcome : Outcome) :
  consistent env → poll env = Ok outcome → consistent (o_env outcome).
Proof.
  intros (Hwi & Hev & Htidy & Hstored) Hpoll.
  destruct (poll_Ok env) as ([state sent] & Hcycle & Heq).
  rewrite Heq in Hpoll. injection Hpoll as <-. simpl.
  split_and!; [done.. |]. simpl. by apply (stored_cycle env state sent).
Qed.

(** Whatever request or cron trigger the worker serves, it leaves its two
    namespaces consistent: the index in step with the records, every
    event-type filter a known one, no service filter ending in a space,
    and the polling state one that a cycle wrote. *)
Theorem worker_keeps_consistent (env : Env) :
  consistent env →
  (∀ cfg request now response outcome,
     handleRequest cfg env request now = Ok (response, outcome) →
     consistent (o_env outcome))
  ∧ (∀ outcome, scheduled env = Ok outcome → consistent (o_env outcome)).
Proof.
  intros Hc. split; [|intros outcome; by apply consistent_poll].
  intros cfg request now response outcome. unfold handleRequest.
  destruct (decide (_ = "/setup")); [by intros [= _ <-]|].
  destruct (decide (_ = "/health")); [by intros [= _ <-]|].
  destruct (_ && _).
  { unfold handleWebhook. destruct (_ && _); [by intros [= _ <-]|].
    destruct (body request) as [update|err]; cbn [mbind Exc_bind];
      [|by intros [= _ <-]].
    destruct (message update) as [m|]; [|by intros [= _ <-]].
    destruct (handleMessage_effect env m now) as (eff & sent & -> & Heff & _).
    cbn [mbind Exc_bind]. intros [= _ <-]. simpl. by apply consistent_effect. }
  destruct (_ && _); [|by intros [= _ <-]].
  destruct (poll env) as [out|err] eqn:Hpoll; cbn [mbind Exc_bind]; [|done].
  intros [= _ <-]. by apply (consistent_poll env).
Qed.

Lemma handleWebhook_requires_secret_witness :
  handleRequest Sample3.cfg Sample2.env7
    (Sample3.webhook (Some "guess") 7 "/unsubscribe") "t2"
  = Ok ({| r_text := "Unauthorized"; r_status := 401 |}, unchanged Sample2.env7).
Proof.
  apply (handleWebhook_requires_secret Sample3.cfg Sample2.env7
           (Sample3.webhook (Some "guess") 7 "/unsubscribe") "t2" "s3cret");
    [reflexivity | discriminate | discriminate | reflexivity | reflexivity].
Defined.


Lemma worker_keeps_consistent_witness :
  match handleRequest Sample3.cfg Sample2.env0
          (Sample3.webhook (Some "s3cret") 7 "/subscribe fortnite") "t1" with
  | Ok (_, outcome) => consistent (o_env outcome)
  | Throw _ => False
  end.
Proof.
  destruct (handleRequest Sample3.cfg Sample2.env0
              (Sample3.webhook (Some "s3cret") 7 "/subscribe fortnite") "t1")
    as [[response outcome]|err] eqn:Hr.
  - destruct (worker_keeps_consistent Sample2.env0) as [Hrequest _].
    + by apply consistent_empty.
    + exact (Hrequest _ _ _ _ _ Hr).
  - vm_compute in Hr. discriminate.
Defined.

End entry.
